(** * go-logger: a shallow embedding and its checked properties

    The development follows the packages of the repository:

    - [zapcore]: the few types of go.uber.org/zap/zapcore the code consumes
      (levels, fields, entries);
    - [model]: [levelToInt] of model.go (the string keyed table);
    - [internal]: the remote core ([remoteCore], its [With], [Check],
      [Write]) and its [levelToInt];
    - [slices]: Go slices over a store of backing arrays, and [With] read
      at that level, where sharing between handles would show;
    - [logger]: [Conf], [Conf.Write], [New] of logger.go (the revision
      with [Level] and the remote core) and [New] of the revision kept in
      src/unnamed/part_004, and the entry point they return;
    - [relay]: [AsyncLogger], its queue and its consumer goroutine as a
      transition system.

    Library code that the repository calls but does not contain
    (encoding/json, strings.TrimSpace, zapcore.ParseLevel, time formatting,
    caller trimming, the console encoder) is gathered in the class
    [Externals]; every definition is stated over an arbitrary instance. *)

From Stdlib Require Import ZArith String Ascii List Bool Lia DecimalString.
From stdpp Require Import base option list gmap.
Import ListNotations.

Local Open Scope string_scope.
Local Open Scope list_scope.
Local Open Scope Z_scope.

(** Go's [[]byte]. *)
Definition bytes := list Byte.byte.

(** The identity of a callback value [func(b []byte)]; [None] is Go's nil. *)
Definition Handle := nat.

(** What a run leaves behind: calls into a delivery callback, and lines the
    console core hands to stdout. *)
Inductive Event : Type :=
| Call (h : Handle) (b : bytes)
| Stdout (b : bytes).

Definition is_Call (e : Event) : bool :=
  match e with Call _ _ => true | Stdout _ => false end.

(** Go's [error] as returned by the code here: only nil is ever returned. *)
Definition error := option string.
Definition nil_error : error := None.

(** ** Effects: a writer over events *)

Definition IO (A : Type) : Type := A * list Event.

Definition ret {A} (a : A) : IO A := (a, []).

Definition bind {A B} (m : IO A) (k : A -> IO B) : IO B :=
  let '(a, es) := m in
  let '(b, es') := k a in
  (b, es ++ es').

Definition emit (e : Event) : IO unit := (tt, [e]).

Definition events {A} (m : IO A) : list Event := snd m.

Declare Scope io_scope.
Delimit Scope io_scope with io.
Notation "x <- m ;; k" := (bind m (fun x => k))
  (at level 100, m at next level, right associativity) : io_scope.
Notation "m ;;; k" := (bind m (fun _ => k))
  (at level 100, right associativity) : io_scope.

(** ** zapcore *)

Module zapcore.

(** [type Level int8] with its named constants. *)
Definition Level := Z.

Definition DebugLevel : Level := -1.
Definition InfoLevel : Level := 0.
Definition WarnLevel : Level := 1.
Definition ErrorLevel : Level := 2.
Definition DPanicLevel : Level := 3.
Definition PanicLevel : Level := 4.
Definition FatalLevel : Level := 5.

(** A [LevelEnabler] as [New] builds it: an [AtomicLevel] holding the
    minimum level; nothing in the repository changes it afterwards. *)
Definition LevelEnabler := Level.

Definition LevelEnabler_Enabled (min : LevelEnabler) (lvl : Level) : bool :=
  min <=? lvl.

Inductive FieldType : Type :=
| UnknownType | ArrayMarshalerType | ObjectMarshalerType | BinaryType
| BoolType | ByteStringType | Complex128Type | Complex64Type | DurationType
| Float64Type | Float32Type | Int64Type | Int32Type | Int16Type | Int8Type
| StringType | TimeType | TimeFullType | Uint64Type | Uint32Type
| Uint16Type | Uint8Type | UintptrType | ReflectType | NamespaceType
| StringerType | ErrorType | SkipType | InlineMarshalerType.

Definition FieldType_eqb (a b : FieldType) : bool :=
  match a, b with
  | UnknownType, UnknownType | ArrayMarshalerType, ArrayMarshalerType
  | ObjectMarshalerType, ObjectMarshalerType | BinaryType, BinaryType
  | BoolType, BoolType | ByteStringType, ByteStringType
  | Complex128Type, Complex128Type | Complex64Type, Complex64Type
  | DurationType, DurationType | Float64Type, Float64Type
  | Float32Type, Float32Type | Int64Type, Int64Type | Int32Type, Int32Type
  | Int16Type, Int16Type | Int8Type, Int8Type | StringType, StringType
  | TimeType, TimeType | TimeFullType, TimeFullType
  | Uint64Type, Uint64Type | Uint32Type, Uint32Type
  | Uint16Type, Uint16Type | Uint8Type, Uint8Type
  | UintptrType, UintptrType | ReflectType, ReflectType
  | NamespaceType, NamespaceType | StringerType, StringerType
  | ErrorType, ErrorType | SkipType, SkipType
  | InlineMarshalerType, InlineMarshalerType => true
  | _, _ => false
  end.

(** [zapcore.Field]; the [Interface] member is never read by the code. *)
Record Field : Type := mkField {
  Key : string;
  Type_ : FieldType;
  Integer : Z;
  String_ : string
}.

(** [zap.String(key, val)]. *)
Definition zap_String (key val : string) : Field :=
  {| Key := key; Type_ := StringType; Integer := 0; String_ := val |}.

(** [zap.Bool(key, val)]. *)
Definition zap_Bool (key : string) (val : bool) : Field :=
  {| Key := key; Type_ := BoolType; Integer := if val then 1 else 0;
     String_ := "" |}.

(** [time.Time], as an instant counted in nanoseconds. *)
Definition Time := Z.

Record EntryCaller : Type := mkEntryCaller {
  Defined_ : bool;
  File : string;
  Line : Z
}.

Definition undefinedCaller : EntryCaller :=
  {| Defined_ := false; File := ""; Line := 0 |}.

Record Entry : Type := mkEntry {
  Level_ : Level;
  Time_ : Time;
  Message : string;
  Caller : EntryCaller
}.

End zapcore.

(** ** JSON values of the two envelope structs *)

Inductive jval : Type :=
| JStr (s : string)
| JInt (z : Z).

(** A struct as encoding/json sees it: its members in declaration order,
    each under the name of its [json:"..."] tag. *)
Definition jobject := list (string * jval).

Definition jkeys (o : jobject) : list string := map fst o.

Fixpoint jlookup (k : string) (o : jobject) : option jval :=
  match o with
  | [] => None
  | (k', v) :: o' => if String.eqb k k' then Some v else jlookup k o'
  end.

(** [zapLog] of model.go: what [Conf.Write] decodes from zap's JSON line. *)
Record zapLog : Type := mkZapLog {
  zl_Level : string;
  zl_CreatedAt : string;
  zl_Path : string;
  zl_Message : string;
  zl_TraceId : string
}.

(** ** Library functions the repository calls *)

Class Externals : Type := {
  (** [json.Marshal] on a struct value; [None] stands for [err != nil]. *)
  json_Marshal : jobject -> option bytes;
  (** [json.Unmarshal(b, &data)] for [data zapLog]. *)
  json_Unmarshal_zapLog : bytes -> option zapLog;
  (** [EntryCaller.TrimmedPath]. *)
  TrimmedPath : zapcore.EntryCaller -> string;
  (** [t.Format(time.DateTime)]. *)
  Format_DateTime : zapcore.Time -> string;
  (** [strings.TrimSpace]. *)
  strings_TrimSpace : string -> string;
  (** [zapcore.ParseLevel]; [None] stands for [err != nil]. *)
  zapcore_ParseLevel : string -> option zapcore.Level;
  (** The console encoder of the console core. *)
  console_Encode : zapcore.Entry -> list zapcore.Field -> bytes
}.

(** ** model.go *)

Module model.

Definition levelToInt (level : string) : Z :=
  if String.eqb level "info" then 1
  else if String.eqb level "warn" then 3
  else if String.eqb level "error" then 4
  else if String.eqb level "panic" then 5
  else if String.eqb level "debug" then 6
  else 0.

Record outputLog : Type := mkOutputLog {
  Path : string;
  Level : Z;
  Content : string;
  TraceId : string;
  CreatedAt : string
}.

Definition outputLog_json (o : outputLog) : jobject :=
  [("Path", JStr (Path o)); ("Level", JInt (Level o));
   ("Content", JStr (Content o)); ("TraceId", JStr (TraceId o));
   ("CreatedAt", JStr (CreatedAt o))].

End model.

(** ** internal: the remote core *)

Module internal.
Import zapcore.

Record remoteLog : Type := mkRemoteLog {
  Path : string;
  Level : Z;
  Content : string;
  TraceId : string;
  CreatedAt : string
}.

Definition remoteLog_json (r : remoteLog) : jobject :=
  [("Path", JStr (Path r)); ("Level", JInt (Level r));
   ("Content", JStr (Content r)); ("TraceId", JStr (TraceId r));
   ("CreatedAt", JStr (CreatedAt r))].

Record remoteCore : Type := mkRemoteCore {
  level : LevelEnabler;
  handle : option Handle;
  fields : list Field
}.

Definition NewRemoteCore (level : LevelEnabler) (handle : option Handle)
  : remoteCore :=
  {| level := level; handle := handle; fields := [] |}.

Definition Enabled (c : remoteCore) (lvl : zapcore.Level) : bool :=
  LevelEnabler_Enabled (level c) lvl.

Definition With (c : remoteCore) (fs : list Field) : remoteCore :=
  if (length fs =? 0)%nat then c
  else
    let next := c in
    {| level := level next; handle := handle next;
       fields := ([] ++ fields c) ++ fs |}.

Definition levelToInt (level : zapcore.Level) : Z :=
  if level =? InfoLevel then 1
  else if level =? WarnLevel then 3
  else if level =? ErrorLevel then 4
  else if level =? PanicLevel then 5
  else if level =? DebugLevel then 6
  else 0.

(** [allFields] of [Write]. *)
Definition allFields (c : remoteCore) (fs : list Field) : list Field :=
  if negb (length (fields c) =? 0)%nat then ([] ++ fields c) ++ fs else fs.

(** The [for ... range] loop of [Write] with its [break]: the value of
    [traceId] when the loop over [fs] ends, starting from the empty
    string. *)
Fixpoint scanTraceId (fs : list Field) : string :=
  match fs with
  | [] => ""
  | f :: rest =>
      if (String.eqb (Key f) "trace_id" || String.eqb (Key f) "TraceId")
         && FieldType_eqb (Type_ f) StringType
      then String_ f
      else scanTraceId rest
  end.

Section WithExternals.
Context `{Externals}.

(** The struct literal [Write] passes to [json.Marshal]. *)
Definition envelope (c : remoteCore) (entry : Entry) (fs : list Field)
  : remoteLog :=
  let traceId := scanTraceId (allFields c fs) in
  let path := if Defined_ (Caller entry) then TrimmedPath (Caller entry)
              else "" in
  {| Path := path;
     Level := levelToInt (Level_ entry);
     Content := Message entry;
     TraceId := traceId;
     CreatedAt := Format_DateTime (Time_ entry) |}.

Definition Write (c : remoteCore) (entry : Entry) (fs : list Field)
  : IO error :=
  match handle c with
  | None => ret nil_error
  | Some h =>
      match json_Marshal (remoteLog_json (envelope c entry fs)) with
      | Some b => (emit (Call h b) ;;; ret nil_error)%io
      | None => ret nil_error
      end
  end.

Definition Sync (c : remoteCore) : IO error := ret nil_error.

(** Modelled from the spec: [NewConsoleCore] and the core it returns are not
    among the sources. The spec calls it a thin pass-through to a
    human-readable renderer, gated by the shared minimum severity; it holds
    no delivery callback. *)
Record consoleCore : Type := mkConsoleCore {
  c_level : LevelEnabler;
  c_fields : list Field
}.

Definition NewConsoleCore (level : LevelEnabler) : consoleCore :=
  {| c_level := level; c_fields := [] |}.

Definition console_Enabled (c : consoleCore) (lvl : zapcore.Level) : bool :=
  LevelEnabler_Enabled (c_level c) lvl.

Definition console_With (c : consoleCore) (fs : list Field) : consoleCore :=
  {| c_level := c_level c; c_fields := c_fields c ++ fs |}.

Definition console_Write (c : consoleCore) (entry : Entry) (fs : list Field)
  : IO error :=
  (emit (Stdout (console_Encode entry (c_fields c ++ fs))) ;;;
   ret nil_error)%io.

(** [zapcore.Core], closed over the implementations [New] installs. *)
Inductive Core : Type :=
| ConsoleCore (c : consoleCore)
| RemoteCore (c : remoteCore).

(** [*zapcore.CheckedEntry]: the cores that asked to write the entry, in
    the order they were added; the nil pointer is the empty list. *)
Definition CheckedEntry := list Core.

Definition AddCore (ce : CheckedEntry) (c : Core) : CheckedEntry := ce ++ [c].

Definition Check_ (c : remoteCore) (entry : Entry) (ce : CheckedEntry)
  : CheckedEntry :=
  if Enabled c (Level_ entry) then AddCore ce (RemoteCore c) else ce.

Definition console_Check (c : consoleCore) (entry : Entry) (ce : CheckedEntry)
  : CheckedEntry :=
  if console_Enabled c (Level_ entry) then AddCore ce (ConsoleCore c) else ce.

End WithExternals.

End internal.

(** ** The entry point: what the code uses of [*zap.Logger]

    [zap.NewNop()] and [zap.New(zapcore.NewTee(cores...), zap.AddCaller())]
    are the two values [New] returns. An emit call checks every member of
    the tee in the order it was added and then writes the entry to those
    that accepted it; [With] derives every member. [Logger_Log] is that
    part of an emit call; what zap does once the record is written (at
    panic severity it panics, at fatal severity it exits) is added by
    [zap_terminal.Logger_emit]. *)

Module zap.
Import zapcore internal.

Inductive Logger : Type :=
| NewNop
| New_ (cores : list Core) (addCaller : bool).

Definition Core_With (c : Core) (fs : list Field) : Core :=
  match c with
  | ConsoleCore c => ConsoleCore (console_With c fs)
  | RemoteCore c => RemoteCore (With c fs)
  end.

Definition Core_Check (c : Core) (entry : Entry) (ce : CheckedEntry)
  : CheckedEntry :=
  match c with
  | ConsoleCore c => console_Check c entry ce
  | RemoteCore c => Check_ c entry ce
  end.

Definition Core_Write `{Externals} (c : Core) (entry : Entry)
  (fs : list Field) : IO error :=
  match c with
  | ConsoleCore c => console_Write c entry fs
  | RemoteCore c => Write c entry fs
  end.

Definition Core_Enabled (c : Core) (lvl : zapcore.Level) : bool :=
  match c with
  | ConsoleCore c => console_Enabled c lvl
  | RemoteCore c => Enabled c lvl
  end.

(** [Logger.With]. *)
Definition Logger_With (l : Logger) (fs : list Field) : Logger :=
  if (length fs =? 0)%nat then l
  else
    match l with
    | NewNop => NewNop
    | New_ cores addCaller => New_ (map (fun c => Core_With c fs) cores) addCaller
    end.

(** [CheckedEntry.Write]: every accepted core writes, in order. *)
Fixpoint CheckedEntry_Write `{Externals} (ce : CheckedEntry) (entry : Entry)
  (fs : list Field) : IO unit :=
  match ce with
  | [] => ret tt
  | c :: ce' =>
      (Core_Write c entry fs ;;; CheckedEntry_Write ce' entry fs)%io
  end.

(** The entry of an emit call; the caller frame is filled in only under
    [zap.AddCaller()], after the cores were checked. *)
Definition logged_entry (addCaller : bool) (lvl : zapcore.Level)
  (msg : string) (now : Time) (site : EntryCaller) : Entry :=
  {| Level_ := lvl; Time_ := now; Message := msg;
     Caller := if addCaller then site else undefinedCaller |}.

(** One emit call ([Logger.Debug], [Info], [Warn], [Error], [Panic], ...)
    at severity [lvl]; [now] is the clock's reading and [site] the caller
    frame the runtime reports. *)
Definition Logger_Log `{Externals} (l : Logger) (lvl : zapcore.Level)
  (msg : string) (now : Time) (site : EntryCaller) (fs : list Field)
  : IO unit :=
  match l with
  | NewNop => ret tt
  | New_ cores addCaller =>
      let ent := logged_entry false lvl msg now site in
      let ce := fold_left (fun ce c => Core_Check c ent ce) cores [] in
      let ent := logged_entry addCaller lvl msg now site in
      CheckedEntry_Write ce ent fs
  end.

(** An entry point reached from [l] by [With] calls, one per field list. *)
Definition derive (l : Logger) (fss : list (list Field)) : Logger :=
  fold_left Logger_With fss l.

(** The remote sinks installed under an entry point. *)
Definition remoteCores (l : Logger) : list remoteCore :=
  match l with
  | NewNop => []
  | New_ cores _ =>
      omap (fun c => match c with RemoteCore r => Some r | _ => None end) cores
  end.

(** The gates of all sinks installed under an entry point. *)
Definition coreLevels (l : Logger) : list LevelEnabler :=
  match l with
  | NewNop => []
  | New_ cores _ =>
      map (fun c => match c with
                    | RemoteCore r => level r
                    | ConsoleCore k => c_level k
                    end) cores
  end.

End zap.

(** ** Package logger: Conf, Conf.Write and New *)

Module logger.
Import zapcore internal zap.

Record Conf : Type := mkConf {
  Console : bool;
  Remote : bool;
  Level : string;
  handle : option Handle
}.

Definition set_handle (c : Conf) (h : option Handle) : Conf :=
  {| Console := Console c; Remote := Remote c; Level := Level c; handle := h |}.

Definition WithHandle (c : Conf) (h : option Handle) : Conf := set_handle c h.

Section WithExternals.
Context `{Externals}.

(** [Conf.Write], the [io.Writer] of the JSON core of the earlier
    constructor; the receiver may be nil. *)
Definition Conf_Write (c : option Conf) (b : bytes) : IO (Z * error) :=
  let n := Z.of_nat (length b) in
  match c with
  | None => ret (n, nil_error)
  | Some c =>
      match handle c with
      | None => ret (n, nil_error)
      | Some h =>
          match json_Unmarshal_zapLog b with
          | None => (emit (Call h b) ;;; ret (n, nil_error))%io
          | Some data =>
              match json_Marshal (model.outputLog_json
                       {| model.Path := zl_Path data;
                          model.Level := model.levelToInt (zl_Level data);
                          model.Content := zl_Message data;
                          model.TraceId := zl_TraceId data;
                          model.CreatedAt := zl_CreatedAt data |}) with
              | None => (emit (Call h b) ;;; ret (n, nil_error))%io
              | Some out => (emit (Call h out) ;;; ret (n, nil_error))%io
              end
          end
      end
  end.

(** The level block of [New]: info unless the trimmed [Level] parses. *)
Definition New_level (conf : Conf) : zapcore.Level :=
  let level := InfoLevel in
  if negb (String.eqb (strings_TrimSpace (Level conf)) "") then
    match zapcore_ParseLevel (strings_TrimSpace (Level conf)) with
    | Some parsed => parsed
    | None => level
    end
  else level.

(** The tail shared by both constructors: nop when no core was added. *)
Definition New_finish (cores : list Core) : Logger :=
  if (length cores =? 0)%nat then NewNop else New_ cores true.

(** [New] of logger.go. [conf] is a pointer: the second component is the
    configuration object as the call leaves it. *)
Definition New (conf : option Conf) (handle_ : option Handle)
  : Logger * option Conf :=
  match conf with
  | None => (NewNop, None)
  | Some conf =>
      let effectiveHandle :=
        match handle_ with
        | None => handle conf
        | Some _ => handle_
        end in
      let conf := set_handle conf effectiveHandle in
      let atomicLevel := New_level conf in
      let cores := [] in
      let cores :=
        if Console conf
        then cores ++ [ConsoleCore (NewConsoleCore atomicLevel)]
        else cores in
      let cores :=
        if Remote conf && bool_decide (effectiveHandle <> None)
        then cores ++ [RemoteCore (NewRemoteCore atomicLevel effectiveHandle)]
        else cores in
      (New_finish cores, Some conf)
  end.

(** [New] of the other revision of the file (src/unnamed/part_004). *)
Definition New_part004 (conf : option Conf) (handle_ : option Handle)
  : Logger * option Conf :=
  match conf with
  | None => (NewNop, None)
  | Some conf =>
      let conf :=
        if bool_decide (handle conf <> None) then set_handle conf handle_
        else conf in
      let atomicLevel := New_level conf in
      let cores := [] in
      let cores :=
        if Console conf
        then cores ++ [ConsoleCore (NewConsoleCore atomicLevel)]
        else cores in
      let cores :=
        if Remote conf && bool_decide (handle conf <> None)
        then cores ++ [RemoteCore (NewRemoteCore atomicLevel handle_)]
        else cores in
      (New_finish cores, Some conf)
  end.

End WithExternals.

End logger.

(** ** Slices over backing arrays

    [c.fields] and the [fields] argument of [With] are Go slices: a window
    [off, off+len) into a backing array that other slices may share, with
    room up to [cap]. [append] writes in place when the room suffices and
    moves to a new array otherwise; how much room a new array gets is the
    runtime's choice, taken here as [slack]. *)

Module slices.
Import zapcore.

Definition loc := nat.

Record slice : Type := mkSlice {
  array : option loc;
  off : nat;
  len : nat;
  cap : nat
}.

Definition nil_slice : slice :=
  {| array := None; off := 0%nat; len := 0%nat; cap := 0%nat |}.

Definition zeroField : Field :=
  {| Key := ""; Type_ := UnknownType; Integer := 0; String_ := "" |}.

(** The elements [s[0], ..., s[len-1]] as the store holds them. *)
Definition cells (σ : gmap loc (list Field)) (s : slice) : list Field :=
  match array s with
  | None => []
  | Some a => take (len s) (drop (off s) (default [] (σ !! a)))
  end.

(** A slice the store can back: its window and its room lie in its array. *)
Definition backed (σ : gmap loc (list Field)) (s : slice) : Prop :=
  (len s <= cap s)%nat /\
  match array s with
  | None => cap s = 0%nat
  | Some a => exists arr, σ !! a = Some arr /\ (off s + cap s <= length arr)%nat
  end.

Record remoteCore : Type := mkRemoteCore {
  level : LevelEnabler;
  handle : option Handle;
  fields : slice
}.

(** The core as the rest of the development sees it. *)
Definition contents (σ : gmap loc (list Field)) (c : remoteCore)
  : internal.remoteCore :=
  {| internal.level := level c; internal.handle := handle c;
     internal.fields := cells σ (fields c) |}.

Section Append.
Variable slack : nat -> nat -> nat.

(** [append(s, xs...)], [xs] being the elements read before any write. *)
Definition append (σ : gmap loc (list Field)) (s : slice) (xs : list Field)
  : gmap loc (list Field) * slice :=
  let n := (len s + length xs)%nat in
  if (n <=? cap s)%nat then
    match array s with
    | None => (σ, s)
    | Some a =>
        let arr := default [] (σ !! a) in
        let arr' := take (off s + len s) arr ++ xs ++ drop (off s + n) arr in
        (<[a := arr']> σ,
         {| array := Some a; off := off s; len := n; cap := cap s |})
    end
  else
    let a := fresh (dom σ) in
    let c := (n + slack (cap s) n)%nat in
    (<[a := cells σ s ++ xs ++ replicate (c - n) zeroField]> σ,
     {| array := Some a; off := 0%nat; len := n; cap := c |}).

(** [remoteCore.With] on slices. *)
Definition With (σ : gmap loc (list Field)) (c : remoteCore) (fs : slice)
  : gmap loc (list Field) * remoteCore :=
  if (len fs =? 0)%nat then (σ, c)
  else
    let next := c in
    let '(σ1, s1) := append σ nil_slice (cells σ (fields c)) in
    let '(σ2, s2) := append σ1 s1 (cells σ1 fs) in
    (σ2, {| level := level next; handle := handle next; fields := s2 |}).

(** What [With] is written to avoid: appending to [c.fields] itself. *)
Definition With_shared (σ : gmap loc (list Field)) (c : remoteCore)
  (fs : slice) : gmap loc (list Field) * remoteCore :=
  if (len fs =? 0)%nat then (σ, c)
  else
    let next := c in
    let '(σ1, s1) := append σ (fields c) (cells σ fs) in
    (σ1, {| level := level next; handle := handle next; fields := s1 |}).

End Append.

End slices.

(** ** The async relay

    [NewAsyncLogger] makes the channel and starts one goroutine running
    [init]; [Write] is the non-blocking send. The goroutine and the callers
    of [Write] interleave: a schedule is a list of actions, each one atomic
    step of a producer or of a goroutine. *)

Module relay.

(** Where a goroutine running [init] stands. *)
Inductive Worker : Type :=
| AtRange              (* about to receive from [l.queue] *)
| Parked               (* blocked in the receive: the queue was empty *)
| Received (b : bytes) (* holds [b], about to test [l.handle != nil] *)
| InHandle (b : bytes). (* inside [l.handle(b)] *)

Inductive Ev : Type :=
| CallStart (h : Handle) (b : bytes)
| CallEnd (h : Handle) (b : bytes).

Record State : Type := mkState {
  size : nat;                (* cap(l.queue) *)
  handle : option Handle;    (* l.handle *)
  queue : list bytes;        (* buffered payloads, oldest first *)
  workers : list Worker;     (* the goroutines running [init] *)
  trace : list Ev;           (* calls into [handle], as they happen *)
  accepted : list bytes      (* history: payloads the send case took *)
}.

(** [NewAsyncLogger(size, handle)]; [make] panics on a negative size. *)
Definition NewAsyncLogger (size : Z) (handle : option Handle) : option State :=
  if size <? 0 then None
  else Some {| size := Z.to_nat size; handle := handle; queue := [];
               workers := [AtRange]; trace := []; accepted := [] |}.

Definition set_worker (st : State) (i : nat) (w : Worker) : State :=
  {| size := size st; handle := handle st; queue := queue st;
     workers := <[i := w]> (workers st); trace := trace st;
     accepted := accepted st |}.

Definition is_Parked (w : Worker) : bool :=
  match w with Parked => true | _ => false end.

(** The index of a goroutine blocked in the receive, if there is one. *)
Fixpoint find_parked (ws : list Worker) : option nat :=
  match ws with
  | [] => None
  | w :: ws' => if is_Parked w then Some 0%nat else S <$> find_parked ws'
  end.

(** The send case of the [select]: [Some] when the send can proceed (a
    receiver is waiting and takes the value, or the buffer has room),
    [None] when it would block. *)
Definition try_send (st : State) (b : bytes) : option State :=
  match find_parked (workers st) with
  | Some i =>
      Some {| size := size st; handle := handle st; queue := queue st;
              workers := <[i := Received b]> (workers st);
              trace := trace st; accepted := accepted st ++ [b] |}
  | None =>
      if (length (queue st) <? size st)%nat
      then Some {| size := size st; handle := handle st;
                   queue := queue st ++ [b]; workers := workers st;
                   trace := trace st; accepted := accepted st ++ [b] |}
      else None
  end.

(** [AsyncLogger.Write]. *)
Definition Write (st : State) (p : bytes) : State * (Z * error) :=
  match try_send st ([] ++ p) with
  | Some st' => (st', (Z.of_nat (length p), nil_error))
  | None => (st, (Z.of_nat (length p), nil_error))
  end.

(** One step of goroutine [i] in [init]. *)
Definition init_step (st : State) (i : nat) : State :=
  match workers st !! i with
  | None => st
  | Some AtRange =>
      match queue st with
      | b :: rest =>
          {| size := size st; handle := handle st; queue := rest;
             workers := <[i := Received b]> (workers st);
             trace := trace st; accepted := accepted st |}
      | [] => set_worker st i Parked
      end
  | Some Parked => st
  | Some (Received b) =>
      match handle st with
      | Some h =>
          {| size := size st; handle := handle st; queue := queue st;
             workers := <[i := InHandle b]> (workers st);
             trace := trace st ++ [CallStart h b];
             accepted := accepted st |}
      | None => set_worker st i AtRange
      end
  | Some (InHandle b) =>
      match handle st with
      | Some h =>
          {| size := size st; handle := handle st; queue := queue st;
             workers := <[i := AtRange]> (workers st);
             trace := trace st ++ [CallEnd h b];
             accepted := accepted st |}
      | None => set_worker st i AtRange
      end
  end.

Inductive Action : Type :=
| Produce (p : bytes)   (* some caller runs [Write(p)] *)
| Consume (i : nat).    (* goroutine [i] takes its next step *)

Definition step (st : State) (a : Action) : State :=
  match a with
  | Produce p => fst (Write st p)
  | Consume i => init_step st i
  end.

Definition run (st : State) (acts : list Action) : State :=
  fold_left step acts st.

(** The payloads [handle] was called with, in call order. *)
Fixpoint calls (t : list Ev) : list bytes :=
  match t with
  | [] => []
  | CallStart _ b :: t' => b :: calls t'
  | CallEnd _ _ :: t' => calls t'
  end.

(** Calls that do not overlap: each one ends before the next starts. *)
Inductive serialized : list Ev -> Prop :=
| serialized_nil : serialized []
| serialized_open h b : serialized [CallStart h b]
| serialized_call h b t :
    serialized t -> serialized (CallStart h b :: CallEnd h b :: t).

(** The send case would block: no receiver waits and the buffer is full. *)
Definition send_blocks (st : State) : Prop :=
  find_parked (workers st) = None /\ (size st <= length (queue st))%nat.

(** What a goroutine holds that it received and has not yet passed on. *)
Definition in_hand (w : Worker) : list bytes :=
  match w with Received b => [b] | _ => [] end.

(** The payloads of completed calls, as a trace. *)
Definition completed (h : Handle) (done : list bytes) : list Ev :=
  flat_map (fun b => [CallStart h b; CallEnd h b]) done.

(** The call a goroutine is inside of, as a trace. *)
Definition current (h : Handle) (w : Worker) : list Ev :=
  match w with InHandle b => [CallStart h b] | _ => [] end.

(** What a goroutine took from the queue and has not finished with. *)
Definition taken (w : Worker) : list bytes :=
  match w with Received b | InHandle b => [b] | _ => [] end.

(** The shape every state reached from [NewAsyncLogger] has: one
    goroutine, parked only on an empty queue, the buffer within its
    size. *)
Definition shape (st : State) : Prop :=
  exists w, workers st = [w] /\
            (w = Parked -> queue st = []) /\
            (length (queue st) <= size st)%nat.

(** With a callback [h]: the trace is the completed calls followed by the
    current one, and the accepted payloads are those, then what is in the
    queue, in that order. *)
Definition delivery (h : Handle) (st : State) : Prop :=
  handle st = Some h /\
  exists w done,
    workers st = [w] /\
    trace st = completed h done ++ current h w /\
    accepted st = done ++ taken w ++ queue st.

(** The steps the single goroutine needs to drain the queue and park. *)
Definition remaining (st : State) : nat :=
  match workers st with
  | [w] =>
      3 * length (queue st)
      + match w with
        | Parked => 0
        | AtRange => 1
        | InHandle _ => 2
        | Received _ => 3
        end
  | _ => 0
  end.

End relay.

(** ** A reference instance of the library functions

    Used to run the definitions on concrete inputs. The encoder follows
    encoding/json on the two envelope structs for text in the ASCII range
    (bytes from 0x80 up are copied as they are, which is what Go does for
    valid UTF-8); the decoder reads flat objects; times are UTC. *)

Module reference.
Import zapcore.

Definition hexdigit (n : N) : ascii :=
  ascii_of_N (if (n <? 10)%N then 48 + n else 87 + n).

Definition quote : string := String (ascii_of_N 34) "".

Definition escape_char (c : ascii) : string :=
  let n := N_of_ascii c in
  if (n =? 34)%N then "\" ++ quote
  else if (n =? 92)%N then "\\"
  else if (n =? 10)%N then "\n"
  else if (n =? 13)%N then "\r"
  else if (n =? 9)%N then "\t"
  else if (n =? 8)%N then "\b"
  else if (n =? 12)%N then "\f"
  else if ((n <? 32) || (n =? 60) || (n =? 62) || (n =? 38))%N
  then "\u00" ++ String (hexdigit (n / 16)) (String (hexdigit (n mod 16)) "")
  else String c "".

Fixpoint escape (s : string) : string :=
  match s with
  | EmptyString => ""
  | String c s' => escape_char c ++ escape s'
  end.

Definition decimal (z : Z) : string :=
  DecimalString.NilZero.string_of_int (Z.to_int z).

Definition encode_value (v : jval) : string :=
  match v with
  | JStr s => quote ++ escape s ++ quote
  | JInt z => decimal z
  end.

Fixpoint encode_members (o : jobject) : string :=
  match o with
  | [] => ""
  | [(k, v)] => quote ++ escape k ++ quote ++ ":" ++ encode_value v
  | (k, v) :: o' =>
      quote ++ escape k ++ quote ++ ":" ++ encode_value v ++ ","
      ++ encode_members o'
  end.

Definition encode (o : jobject) : bytes :=
  list_byte_of_string ("{" ++ encode_members o ++ "}").

(** *** A decoder for flat objects *)

Definition is_space (c : ascii) : bool :=
  let n := N_of_ascii c in
  ((n =? 32) || (n =? 9) || (n =? 10) || (n =? 13))%N.

Fixpoint skip_ws (s : string) : string :=
  match s with
  | String c s' => if is_space c then skip_ws s' else s
  | EmptyString => s
  end.

Definition hexval (c : ascii) : option N :=
  let n := N_of_ascii c in
  if ((48 <=? n) && (n <=? 57))%N then Some (n - 48)%N
  else if ((97 <=? n) && (n <=? 102))%N then Some (n - 87)%N
  else if ((65 <=? n) && (n <=? 70))%N then Some (n - 55)%N
  else None.

(** The text after an opening quote, up to the closing one; of the
    [\uXXXX] escapes, those below 0x100 are read. *)
Fixpoint read_string (s : string) : option (string * string) :=
  match s with
  | EmptyString => None
  | String c s' =>
      if (N_of_ascii c =? 34)%N then Some ("", s')
      else if (N_of_ascii c =? 92)%N then
        match s' with
        | String "u" (String "0" (String "0" (String h (String l s'')))) =>
            match hexval h, hexval l, read_string s'' with
            | Some x, Some y, Some (r, rest) =>
                Some (String (ascii_of_N (16 * x + y)) r, rest)
            | _, _, _ => None
            end
        | String e s'' =>
            let n := N_of_ascii e in
            let lit :=
              if (n =? 110)%N then Some (ascii_of_N 10)
              else if (n =? 114)%N then Some (ascii_of_N 13)
              else if (n =? 116)%N then Some (ascii_of_N 9)
              else if (n =? 98)%N then Some (ascii_of_N 8)
              else if (n =? 102)%N then Some (ascii_of_N 12)
              else if ((n =? 34) || (n =? 92) || (n =? 47))%N then Some e
              else None in
            match lit, read_string s'' with
            | Some a, Some (r, rest) => Some (String a r, rest)
            | _, _ => None
            end
        | EmptyString => None
        end
      else
        match read_string s' with
        | Some (r, rest) => Some (String c r, rest)
        | None => None
        end
  end.

Definition is_digit (c : ascii) : bool :=
  let n := N_of_ascii c in ((48 <=? n) && (n <=? 57))%N.

Fixpoint read_digits (acc : Z) (s : string) : Z * string :=
  match s with
  | String c s' =>
      if is_digit c
      then read_digits (10 * acc + Z.of_N (N_of_ascii c - 48)) s'
      else (acc, s)
  | EmptyString => (acc, s)
  end.

Definition read_value (s : string) : option (jval * string) :=
  match s with
  | String c s' =>
      if (N_of_ascii c =? 34)%N then
        match read_string s' with
        | Some (r, rest) => Some (JStr r, rest)
        | None => None
        end
      else if (N_of_ascii c =? 45)%N then
        match s' with
        | String d _ =>
            if is_digit d
            then let '(z, rest) := read_digits 0 s' in Some (JInt (- z), rest)
            else None
        | EmptyString => None
        end
      else if is_digit c
      then let '(z, rest) := read_digits 0 s in Some (JInt z, rest)
      else None
  | EmptyString => None
  end.

(** The members after the opening brace; [fuel] bounds their number. *)
Fixpoint read_members (fuel : nat) (first : bool) (s : string)
  : option jobject :=
  match fuel with
  | O => None
  | S fuel' =>
      match skip_ws s with
      | String c s' =>
          if (N_of_ascii c =? 125)%N then
            match skip_ws s' with EmptyString => Some [] | _ => None end
          else
            let after_comma :=
              if first then Some (String c s')
              else if (N_of_ascii c =? 44)%N then Some (skip_ws s')
              else None in
            match after_comma with
            | Some (String q s1) =>
                if (N_of_ascii q =? 34)%N then
                  match read_string s1 with
                  | Some (k, s2) =>
                      match skip_ws s2 with
                      | String colon s3 =>
                          if (N_of_ascii colon =? 58)%N then
                            match read_value (skip_ws s3) with
                            | Some (v, s4) =>
                                match read_members fuel' false s4 with
                                | Some o => Some ((k, v) :: o)
                                | None => None
                                end
                            | None => None
                            end
                          else None
                      | EmptyString => None
                      end
                  | None => None
                  end
                else None
            | _ => None
            end
      | EmptyString => None
      end
  end.

Definition decode (b : bytes) : option jobject :=
  let s := string_of_list_byte b in
  match skip_ws s with
  | String c s' =>
      if (N_of_ascii c =? 123)%N then read_members (S (String.length s)) true s'
      else None
  | EmptyString => None
  end.

(** A member of a decoded object as a Go string member: absent keys leave
    the zero value, a number where a string is expected is an error. *)
Definition string_member (k : string) (o : jobject) : option string :=
  match jlookup k o with
  | None => Some ""
  | Some (JStr s) => Some s
  | Some (JInt _) => None
  end.

Definition decode_zapLog (b : bytes) : option zapLog :=
  o ← decode b;
  level ← string_member "level" o;
  created ← string_member "created_at" o;
  path ← string_member "path" o;
  message ← string_member "message" o;
  trace ← string_member "trace_id" o;
  Some {| zl_Level := level; zl_CreatedAt := created; zl_Path := path;
          zl_Message := message; zl_TraceId := trace |}.

(** *** Trimming, levels, paths and times *)

Definition is_trim_space (c : ascii) : bool :=
  let n := N_of_ascii c in
  ((n =? 32) || ((9 <=? n) && (n <=? 13)))%N.

Fixpoint trim_left (s : string) : string :=
  match s with
  | String c s' => if is_trim_space c then trim_left s' else s
  | EmptyString => s
  end.

(** Drops the trailing spaces: a space is kept when text follows it. *)
Fixpoint trim_right (s : string) : string :=
  match s with
  | EmptyString => ""
  | String c s' =>
      match trim_right s' with
      | EmptyString => if is_trim_space c then "" else String c ""
      | r => String c r
      end
  end.

Definition TrimSpace (s : string) : string := trim_right (trim_left s).

Definition to_lower_char (c : ascii) : ascii :=
  let n := N_of_ascii c in
  if ((65 <=? n) && (n <=? 90))%N then ascii_of_N (n + 32) else c.

Fixpoint to_lower (s : string) : string :=
  match s with
  | EmptyString => ""
  | String c s' => String (to_lower_char c) (to_lower s')
  end.

Definition level_of_text (text : string) : option Level :=
  if String.eqb text "debug" || String.eqb text "DEBUG" then Some DebugLevel
  else if String.eqb text "info" || String.eqb text "INFO"
          || String.eqb text "" then Some InfoLevel
  else if String.eqb text "warn" || String.eqb text "WARN" then Some WarnLevel
  else if String.eqb text "error" || String.eqb text "ERROR"
  then Some ErrorLevel
  else if String.eqb text "dpanic" || String.eqb text "DPANIC"
  then Some DPanicLevel
  else if String.eqb text "panic" || String.eqb text "PANIC"
  then Some PanicLevel
  else if String.eqb text "fatal" || String.eqb text "FATAL"
  then Some FatalLevel
  else None.

Definition ParseLevel (text : string) : option Level :=
  match level_of_text text with
  | Some l => Some l
  | None => level_of_text (to_lower text)
  end.

(** The part of [s] after its last-but-one slash ([acc] collects, reversed,
    the segments seen so far). *)
Fixpoint last_two_segments (s : string) (prev cur : string) (seen : nat)
  : string :=
  match s with
  | EmptyString =>
      match seen with
      | O => cur
      | _ => prev ++ "/" ++ cur
      end
  | String c s' =>
      if (N_of_ascii c =? 47)%N
      then last_two_segments s' cur "" (S seen)
      else last_two_segments s' prev (cur ++ String c "") seen
  end.

Definition trimmed_path (ec : EntryCaller) : string :=
  if Defined_ ec
  then last_two_segments (File ec) "" "" 0 ++ ":" ++ decimal (Line ec)
  else "undefined".

Definition two_digits (z : Z) : string :=
  if z <? 10 then "0" ++ decimal z else decimal z.

Definition four_digits (z : Z) : string :=
  if z <? 10 then "000" ++ decimal z
  else if z <? 100 then "00" ++ decimal z
  else if z <? 1000 then "0" ++ decimal z
  else decimal z.

(** The civil date of a day counted from 1970-01-01. *)
Definition civil_of_days (d : Z) : Z * Z * Z :=
  let z := d + 719468 in
  let era := z / 146097 in
  let doe := z - era * 146097 in
  let yoe := (doe - doe / 1460 + doe / 36524 - doe / 146096) / 365 in
  let doy := doe - (365 * yoe + yoe / 4 - yoe / 100) in
  let mp := (5 * doy + 2) / 153 in
  let day := doy - (153 * mp + 2) / 5 + 1 in
  let month := if mp <? 10 then mp + 3 else mp - 9 in
  let year := yoe + era * 400 + (if month <=? 2 then 1 else 0) in
  (year, month, day).

Definition format_DateTime (t : Time) : string :=
  let secs := t / 1000000000 in
  let '(y, m, d) := civil_of_days (secs / 86400) in
  let sod := secs mod 86400 in
  four_digits y ++ "-" ++ two_digits m ++ "-" ++ two_digits d ++ " "
  ++ two_digits (sod / 3600) ++ ":" ++ two_digits (sod mod 3600 / 60)
  ++ ":" ++ two_digits (sod mod 60).

#[export] Instance go : Externals := {|
  json_Marshal := fun o => Some (encode o);
  json_Unmarshal_zapLog := decode_zapLog;
  TrimmedPath := trimmed_path;
  Format_DateTime := format_DateTime;
  strings_TrimSpace := TrimSpace;
  zapcore_ParseLevel := ParseLevel;
  console_Encode := fun e _ => list_byte_of_string (Message e)
|}.

End reference.

(** ** The claims' own words, as definitions to compare the code with *)

Module spec.
Import zapcore.

(** A string-typed field named exactly [trace_id] or [TraceId]. *)
Definition is_trace_field (f : Field) : bool :=
  (String.eqb (Key f) "trace_id" || String.eqb (Key f) "TraceId")
  && FieldType_eqb (Type_ f) StringType.

(** The value of the first such field, scanning the standing fields first
    and the call-site fields after them; the empty string when there is
    none. *)
Definition TraceId_of (standing callSite : list Field) : string :=
  match List.find is_trace_field (standing ++ callSite) with
  | Some f => String_ f
  | None => ""
  end.

(** The five keys of the envelope. *)
Definition envelope_keys : list string :=
  ["Path"; "Level"; "Content"; "TraceId"; "CreatedAt"].

End spec.

(** ** Concrete inputs the properties are run on *)

Module fixtures.
Import zapcore.

(** The configuration of the test case and of the README: only the remote
    sink, no level, no callback set beforehand. *)
Definition remote_only : logger.Conf :=
  {| logger.Console := false; logger.Remote := true; logger.Level := "";
     logger.handle := None |}.

Definition here : EntryCaller :=
  {| Defined_ := true; File := "/src/app/cmd/main.go"; Line := 42 |}.

(** A store where the original's slice has room to spare: one standing
    field in an array of three cells, and two one-field arguments. *)
Definition svc : Field := zap_String "service" "x".
Definition one : Field := zap_String "component" "a".
Definition two : Field := zap_String "component" "b".

Definition store0 : gmap slices.loc (list Field) :=
  <[0%nat := [svc; slices.zeroField; slices.zeroField]]>
    (<[1%nat := [one]]> (<[2%nat := [two]]> ∅)).

Definition core0 : slices.remoteCore :=
  {| slices.level := InfoLevel; slices.handle := Some 7%nat;
     slices.fields :=
       {| slices.array := Some 0%nat; slices.off := 0; slices.len := 1;
          slices.cap := 3 |} |}.

Definition arg1 : slices.slice :=
  {| slices.array := Some 1%nat; slices.off := 0; slices.len := 1;
     slices.cap := 1 |}.
Definition arg2 : slices.slice :=
  {| slices.array := Some 2%nat; slices.off := 0; slices.len := 1;
     slices.cap := 1 |}.

(** A growth policy: a new array gets as much room again as it needs. *)
Definition double (_ n : nat) : nat := n.

(** A relay of size two as [NewAsyncLogger] leaves it, four payloads, and
    a schedule: three writes against the idle consumer (the third finds
    the queue full), two steps of the consumer, one more write. *)
Definition relay0 : relay.State :=
  {| relay.size := 2; relay.handle := Some 7%nat; relay.queue := [];
     relay.workers := [relay.AtRange]; relay.trace := [];
     relay.accepted := [] |}.

Definition p1 : bytes := [Byte.x31].
Definition p2 : bytes := [Byte.x32].
Definition p3 : bytes := [Byte.x33].
Definition p4 : bytes := [Byte.x34].

Definition schedule : list relay.Action :=
  [relay.Produce p1; relay.Produce p2; relay.Produce p3;
   relay.Consume 0; relay.Consume 0; relay.Produce p4].

End fixtures.

(** ** Further definitions: [allFields] on slices, schedules, level names *)

Module write_slices.
Import zapcore slices.

Section Append.
Variable slack : nat -> nat -> nat.

(** [allFields] of [remoteCore.Write], on slices: the copy-and-append is
    made only when the core has standing fields, otherwise the call-site
    slice itself is scanned. *)
Definition allFields (σ : gmap loc (list Field)) (c : remoteCore) (fs : slice)
  : gmap loc (list Field) * slice :=
  if negb (len (fields c) =? 0)%nat then
    let '(σ1, s1) := append slack σ nil_slice (cells σ (fields c)) in
    append slack σ1 s1 (cells σ1 fs)
  else (σ, fs).

End Append.

End write_slices.

Module schedules.
Import relay.

(** The payloads the callers of [Write] passed, in the order of the
    schedule. *)
Fixpoint produced (acts : list Action) : list bytes :=
  match acts with
  | [] => []
  | Produce p :: acts' => p :: produced acts'
  | Consume _ :: acts' => produced acts'
  end.

End schedules.

Module level_names.
Import zapcore.

(** [Level.String] of zapcore, which the JSON encoder of the earlier
    constructor writes under the key [level]: the lower-case names, and
    [Level(n)] for a level without a name. *)
Definition Level_String (l : Level) : string :=
  if l =? DebugLevel then "debug"
  else if l =? InfoLevel then "info"
  else if l =? WarnLevel then "warn"
  else if l =? ErrorLevel then "error"
  else if l =? DPanicLevel then "dpanic"
  else if l =? PanicLevel then "panic"
  else if l =? FatalLevel then "fatal"
  else "Level(" ++ reference.decimal l ++ ")".

(** The five levels the tables give a code to. *)
Definition coded (l : Level) : Prop :=
  l = DebugLevel \/ l = InfoLevel \/ l = WarnLevel \/ l = ErrorLevel
  \/ l = PanicLevel.

Definition coded_name (s : string) : Prop :=
  s = "debug" \/ s = "info" \/ s = "warn" \/ s = "error" \/ s = "panic".

End level_names.

(** ** Byte slices: the copy [AsyncLogger.Write] sends *)

Module byte_slices.

Definition loc := nat.

Record slice : Type := mkSlice {
  array : option loc;
  off : nat;
  len : nat;
  cap : nat
}.

Definition nil_slice : slice :=
  {| array := None; off := 0%nat; len := 0%nat; cap := 0%nat |}.

Definition cells (σ : gmap loc bytes) (s : slice) : bytes :=
  match array s with
  | None => []
  | Some a => take (len s) (drop (off s) (default [] (σ !! a)))
  end.

Definition backed (σ : gmap loc bytes) (s : slice) : Prop :=
  (len s <= cap s)%nat /\
  match array s with
  | None => cap s = 0%nat
  | Some a => exists arr, σ !! a = Some arr /\ (off s + cap s <= length arr)%nat
  end.

Section Append.
Variable slack : nat -> nat -> nat.

(** [append(s, xs...)] on bytes, as for fields. *)
Definition append (σ : gmap loc bytes) (s : slice) (xs : bytes)
  : gmap loc bytes * slice :=
  let n := (len s + length xs)%nat in
  if (n <=? cap s)%nat then
    match array s with
    | None => (σ, s)
    | Some a =>
        let arr := default [] (σ !! a) in
        let arr' := take (off s + len s) arr ++ xs ++ drop (off s + n) arr in
        (<[a := arr']> σ,
         {| array := Some a; off := off s; len := n; cap := cap s |})
    end
  else
    let a := fresh (dom σ) in
    let c := (n + slack (cap s) n)%nat in
    (<[a := cells σ s ++ xs ++ replicate (c - n) Byte.x00]> σ,
     {| array := Some a; off := 0%nat; len := n; cap := c |}).

(** The operand of the send in [Write]: [append([]byte(nil), p...)]. *)
Definition Write_copy (σ : gmap loc bytes) (p : slice)
  : gmap loc bytes * slice :=
  append σ nil_slice (cells σ p).

End Append.

End byte_slices.

(** ** What zap does when the record is written *)

Module zap_terminal.
Import zapcore zap.

(** How an emit call ends. *)
Inductive Outcome : Type :=
| Returns
| Panics (msg : string)
| Exits (code : Z).

(** The terminal behaviour zap sets up for an entry, whether or not a
    core accepted it: [WriteThenPanic] at panic severity, [WriteThenFatal]
    at fatal severity. At dpanic severity zap panics only in development
    mode, which neither [zap.NewNop()] nor [zap.New] with [AddCaller]
    turns on. *)
Definition terminal (lvl : zapcore.Level) (msg : string) : Outcome :=
  if lvl =? PanicLevel then Panics msg
  else if lvl =? FatalLevel then Exits 1
  else Returns.

(** One emit call, to its end: the cores that accepted the record write
    it, then the terminal behaviour of its severity follows. *)
Definition Logger_emit `{Externals} (l : Logger) (lvl : zapcore.Level)
  (msg : string) (now : Time) (site : EntryCaller) (fs : list Field)
  : IO Outcome :=
  (Logger_Log l lvl msg now site fs ;;; ret (terminal lvl msg))%io.

End zap_terminal.

(** ** The first [New] of logger.go, with the JSON core *)

Module logger_v1.
Import logger.

(** [*Conf]: configurations live in a store and are passed by pointer;
    [New] writes to the one it is given, and so may its owner later. *)
Definition ptr := nat.

Definition store_set (σ : ptr -> Conf) (p : ptr) (c : Conf) : ptr -> Conf :=
  fun q => if (q =? p)%nat then c else σ q.

(** [Conf.WithHandle] on the configuration at [p]. *)
Definition WithHandle (σ : ptr -> Conf) (p : ptr) (h : option Handle)
  : ptr -> Conf :=
  store_set σ p (set_handle (σ p) h).

(** The cores the first revision builds: [NewConsoleCore()] and
    [NewJsonCore(conf)]. The JSON core keeps the pointer it was given as
    its write syncer. *)
Inductive Core : Type :=
| ConsoleCore
| JsonCore (config : ptr).

Inductive Logger : Type :=
| NewNop
| New_ (cores : list Core) (addCaller : bool).

Definition New (σ : ptr -> Conf) (conf : option ptr)
  (handle_ : option Handle) : Logger * (ptr -> Conf) :=
  match conf with
  | None => (NewNop, σ)
  | Some p =>
      let σ :=
        if bool_decide (handle_ <> None)
        then store_set σ p (set_handle (σ p) handle_)
        else σ in
      let cores := [] in
      let cores :=
        if Console (σ p) then cores ++ [ConsoleCore] else cores in
      let cores :=
        if Remote (σ p) && bool_decide (handle (σ p) <> None)
        then cores ++ [JsonCore p]
        else cores in
      (if (length cores =? 0)%nat then NewNop else New_ cores true, σ)
  end.

(** The configurations the JSON cores of an entry point write to. *)
Definition writers (l : Logger) : list ptr :=
  match l with
  | NewNop => []
  | New_ cores _ =>
      omap (fun c => match c with JsonCore k => Some k | _ => None end) cores
  end.

(** What the write syncer of a JSON core does with a line: [Conf.Write]
    on the configuration as the store holds it when the line is
    written. *)
Definition JsonCore_out `{Externals} (σ : ptr -> Conf) (config : ptr)
  (line : bytes) : IO (Z * error) :=
  Conf_Write (Some (σ config)) line.

End logger_v1.

(** * Properties *)

(** ** The writer *)

Lemma events_bind {A B} (m : IO A) (k : A -> IO B) :
  events (bind m k) = events m ++ events (k (fst m)).
Proof.
  destruct m as [a es]. unfold bind, events. simpl.
  destruct (k a) as [b es']. reflexivity.
Qed.

Lemma fst_bind {A B} (m : IO A) (k : A -> IO B) :
  fst (bind m k) = fst (k (fst m)).
Proof.
  destruct m as [a es]. unfold bind. simpl.
  destruct (k a) as [b es']. reflexivity.
Qed.

(** ** The level tables *)

Module level_facts.
Import zapcore.

Lemma remote_table :
  internal.levelToInt DebugLevel = 6 /\ internal.levelToInt InfoLevel = 1 /\
  internal.levelToInt WarnLevel = 3 /\ internal.levelToInt ErrorLevel = 4 /\
  internal.levelToInt PanicLevel = 5.
Proof. repeat split. Qed.

Lemma remote_other (l : Level) :
  l <> DebugLevel -> l <> InfoLevel -> l <> WarnLevel -> l <> ErrorLevel ->
  l <> PanicLevel -> internal.levelToInt l = 0.
Proof.
  unfold internal.levelToInt, DebugLevel, InfoLevel, WarnLevel, ErrorLevel,
    PanicLevel.
  intros Hd Hi Hw He Hp.
  repeat match goal with
         | |- context [ (?a =? ?b) ] =>
             destruct (Z.eqb_spec a b); [congruence |]
         end.
  reflexivity.
Qed.

Lemma string_table :
  model.levelToInt "debug" = 6 /\ model.levelToInt "info" = 1 /\
  model.levelToInt "warn" = 3 /\ model.levelToInt "error" = 4 /\
  model.levelToInt "panic" = 5.
Proof. repeat split. Qed.

Lemma string_other (s : string) :
  s <> "debug" -> s <> "info" -> s <> "warn" -> s <> "error" ->
  s <> "panic" -> model.levelToInt s = 0.
Proof.
  unfold model.levelToInt. intros Hd Hi Hw He Hp.
  repeat match goal with
         | |- context [ String.eqb ?a ?b ] =>
             destruct (String.eqb_spec a b); [congruence |]
         end.
  reflexivity.
Qed.

End level_facts.

(** ** The remote core *)

Module remote_facts.
Import zapcore internal.

Section WithExternals.
Context `{Externals}.

(** [Write] never returns an error. *)
Lemma Write_nil (c : remoteCore) (entry : Entry) (fs : list Field) :
  fst (Write c entry fs) = nil_error.
Proof.
  unfold Write. destruct (handle c); [| reflexivity].
  destruct (json_Marshal _); reflexivity.
Qed.

(** What [Write] does, by cases on the callback and on the encoder. *)
Lemma Write_events (c : remoteCore) (entry : Entry) (fs : list Field) :
  events (Write c entry fs) =
  match handle c, json_Marshal (remoteLog_json (envelope c entry fs)) with
  | Some h, Some b => [Call h b]
  | _, _ => []
  end.
Proof.
  unfold Write. destruct (handle c); [| reflexivity].
  destruct (json_Marshal _); reflexivity.
Qed.

Lemma allFields_app (c : remoteCore) (fs : list Field) :
  allFields c fs = fields c ++ fs.
Proof.
  unfold allFields. destruct (fields c); reflexivity.
Qed.

(** C1: every payload the remote core forwards is the encoding of an
    envelope whose Level is [levelToInt] of the record's severity, and
    [levelToInt] is the fixed table: debug 6, info 1, warn 3, error 4,
    panic 5, every other level 0. The Level of the envelope depends on
    nothing but the severity. The string keyed table of model.go is the
    same one. *)
Theorem remote_level_is_fixed_table :
  (forall c entry fs h b,
      In (Call h b) (events (Write c entry fs)) ->
      json_Marshal (remoteLog_json (envelope c entry fs)) = Some b /\
      Level (envelope c entry fs) = levelToInt (Level_ entry)) /\
  (forall c c' entry entry' fs fs',
      Level_ entry = Level_ entry' ->
      Level (envelope c entry fs) = Level (envelope c' entry' fs')) /\
  (levelToInt DebugLevel = 6 /\ levelToInt InfoLevel = 1 /\
   levelToInt WarnLevel = 3 /\ levelToInt ErrorLevel = 4 /\
   levelToInt PanicLevel = 5) /\
  (forall l, l <> DebugLevel -> l <> InfoLevel -> l <> WarnLevel ->
             l <> ErrorLevel -> l <> PanicLevel -> levelToInt l = 0) /\
  (model.levelToInt "debug" = 6 /\ model.levelToInt "info" = 1 /\
   model.levelToInt "warn" = 3 /\ model.levelToInt "error" = 4 /\
   model.levelToInt "panic" = 5) /\
  (forall s, s <> "debug" -> s <> "info" -> s <> "warn" -> s <> "error" ->
             s <> "panic" -> model.levelToInt s = 0).
Proof.
  split; [| split; [| split; [| split; [| split]]]].
  - intros c entry fs h b Hin. rewrite Write_events in Hin.
    destruct (handle c) as [h' |]; [| destruct Hin].
    destruct (json_Marshal _) as [b' |]; [| destruct Hin].
    destruct Hin as [Heq | []]. inversion Heq; subst. split; reflexivity.
  - intros c c' entry entry' fs fs' Heq. simpl. now rewrite Heq.
  - exact level_facts.remote_table.
  - exact level_facts.remote_other.
  - exact level_facts.string_table.
  - exact level_facts.string_other.
Qed.

Lemma With_fields (c : remoteCore) (fs : list Field) :
  fields (With c fs) = fields c ++ fs.
Proof.
  unfold With. destruct fs as [| f fs]; simpl.
  - now rewrite app_nil_r.
  - reflexivity.
Qed.

Lemma With_level (c : remoteCore) (fs : list Field) :
  level (With c fs) = level c.
Proof. unfold With. destruct (length fs =? 0)%nat; reflexivity. Qed.

Lemma With_handle (c : remoteCore) (fs : list Field) :
  handle (With c fs) = handle c.
Proof. unfold With. destruct (length fs =? 0)%nat; reflexivity. Qed.

(** The loop of [Write] stops at the first match. *)
Lemma scanTraceId_find (fs : list Field) :
  scanTraceId fs =
  match List.find spec.is_trace_field fs with
  | Some f => String_ f
  | None => ""
  end.
Proof.
  induction fs as [| f fs IH]; simpl; [reflexivity |].
  unfold spec.is_trace_field at 1.
  destruct ((String.eqb (Key f) "trace_id" || String.eqb (Key f) "TraceId")
            && FieldType_eqb (Type_ f) StringType); [reflexivity | exact IH].
Qed.

Lemma scanTraceId_first (pre post : list Field) (f : Field) :
  (forall g, In g pre -> spec.is_trace_field g = false) ->
  spec.is_trace_field f = true ->
  scanTraceId (pre ++ f :: post) = String_ f.
Proof.
  intros Hpre Hf. induction pre as [| g pre IH]; simpl.
  - unfold spec.is_trace_field in Hf. now rewrite Hf.
  - pose proof (Hpre g (or_introl eq_refl)) as Hg.
    unfold spec.is_trace_field in Hg. rewrite Hg.
    apply IH. intros g' Hin. apply Hpre. now right.
Qed.

Lemma scanTraceId_none (fs : list Field) :
  (forall g, In g fs -> spec.is_trace_field g = false) ->
  scanTraceId fs = "".
Proof.
  induction fs as [| g fs IH]; simpl; intros Hall; [reflexivity |].
  pose proof (Hall g (or_introl eq_refl)) as Hg.
  unfold spec.is_trace_field in Hg. rewrite Hg.
  apply IH. intros g' Hin. apply Hall. now right.
Qed.

(** C4: the TraceId of the envelope written for a record is the value of
    the first string-typed field named exactly trace_id or TraceId, the
    standing fields of the core scanned first and the call-site fields
    after them, and the empty string when no field matches. Standing
    fields are those the core accumulated through With, in the order they
    were attached. *)
Theorem traceId_is_first_match :
  (forall c entry fs,
      TraceId (envelope c entry fs) = spec.TraceId_of (fields c) fs) /\
  (forall c entry fs pre f post,
      fields c ++ fs = pre ++ f :: post ->
      (forall g, In g pre -> spec.is_trace_field g = false) ->
      spec.is_trace_field f = true ->
      TraceId (envelope c entry fs) = String_ f) /\
  (forall c entry fs,
      (forall g, In g (fields c ++ fs) -> spec.is_trace_field g = false) ->
      TraceId (envelope c entry fs) = "") /\
  (forall c standing entry fs,
      TraceId (envelope (With c standing) entry fs)
      = spec.TraceId_of (fields c ++ standing) fs) /\
  (forall c entry fs h b,
      In (Call h b) (events (Write c entry fs)) ->
      json_Marshal (remoteLog_json (envelope c entry fs)) = Some b).
Proof.
  split; [| split; [| split; [| split]]].
  - intros c entry fs. unfold spec.TraceId_of. simpl.
    rewrite allFields_app. apply scanTraceId_find.
  - intros c entry fs pre f post Heq Hpre Hf. simpl.
    rewrite allFields_app, Heq. now apply scanTraceId_first.
  - intros c entry fs Hall. simpl. rewrite allFields_app.
    now apply scanTraceId_none.
  - intros c standing entry fs. unfold spec.TraceId_of. simpl.
    rewrite allFields_app, With_fields. apply scanTraceId_find.
  - intros c entry fs h b Hin. rewrite Write_events in Hin.
    destruct (handle c) as [h' |]; [| destruct Hin].
    destruct (json_Marshal _) as [b' |]; [| destruct Hin].
    destruct Hin as [Heq | []]. now inversion Heq.
Qed.

End WithExternals.

Import reference.

Example traceId_call_site :
  TraceId (envelope (NewRemoteCore InfoLevel (Some 1%nat))
             (mkEntry InfoLevel 0 "hello" undefinedCaller)
             [zap_Bool "cancel" true; zap_String "trace_id" "abc123"])
  = "abc123".
Proof. reflexivity. Qed.

Example traceId_standing_first :
  TraceId (envelope
             (With (NewRemoteCore InfoLevel (Some 1%nat))
                [zap_String "TraceId" "standing"])
             (mkEntry InfoLevel 0 "hello" undefinedCaller)
             [zap_String "trace_id" "call-site"])
  = "standing".
Proof. reflexivity. Qed.

Example traceId_wrong_type_skipped :
  TraceId (envelope (NewRemoteCore InfoLevel (Some 1%nat))
             (mkEntry InfoLevel 0 "hello" undefinedCaller)
             [mkField "trace_id" Int64Type 7 ""; zap_String "Trace_Id" "x"])
  = "".
Proof. reflexivity. Qed.

End remote_facts.

(** ** The entry point *)

Module zap_facts.
Import zapcore internal zap.

Lemma fold_Check (ent : Entry) (cores : list Core) (acc : CheckedEntry) :
  fold_left (fun ce c => Core_Check c ent ce) cores acc
  = acc ++ List.filter (fun c => Core_Enabled c (Level_ ent)) cores.
Proof.
  revert acc. induction cores as [| c cores IH]; intros acc; simpl.
  - now rewrite app_nil_r.
  - rewrite IH.
    destruct c as [k | r]; simpl;
      unfold console_Check, Check_, AddCore;
      match goal with |- context [if ?e then _ else _] => destruct e end;
      simpl; now rewrite <- ?app_assoc.
Qed.

Lemma remoteCores_With (l : Logger) (fs : list Field) :
  remoteCores (Logger_With l fs) = map (fun r => With r fs) (remoteCores l).
Proof.
  unfold Logger_With. destruct fs as [| f fs]; simpl.
  - symmetry. apply map_id.
  - destruct l as [| cores ac]; simpl; [reflexivity |].
    induction cores as [| c cores IH]; simpl; [reflexivity |].
    destruct c as [k | r]; simpl.
    + exact IH.
    + f_equal. exact IH.
Qed.

Lemma remoteCores_derive (l : Logger) (fss : list (list Field)) :
  remoteCores l = [] -> remoteCores (derive l fss) = [].
Proof.
  unfold derive. revert l. induction fss as [| fs fss IH]; intros l Hl; simpl.
  - exact Hl.
  - apply IH. rewrite remoteCores_With, Hl. reflexivity.
Qed.

Section WithExternals.
Context `{Externals}.

Lemma events_CheckedEntry_Write (ce : CheckedEntry) (ent : Entry)
  (fs : list Field) :
  events (CheckedEntry_Write ce ent fs)
  = flat_map (fun c => events (Core_Write c ent fs)) ce.
Proof.
  induction ce as [| c ce IH]; simpl; [reflexivity |].
  rewrite events_bind. now rewrite IH.
Qed.

(** The events of one emit call: the writes of the enabled members, in the
    order the members were added. *)
Lemma Log_events (cores : list Core) (ac : bool) (lvl : zapcore.Level)
  (msg : string) (now : Time) (site : EntryCaller) (fs : list Field) :
  events (Logger_Log (New_ cores ac) lvl msg now site fs)
  = flat_map (fun c => events (Core_Write c (logged_entry ac lvl msg now site) fs))
      (List.filter (fun c => Core_Enabled c lvl) cores).
Proof.
  unfold Logger_Log. rewrite events_CheckedEntry_Write, fold_Check.
  reflexivity.
Qed.

Lemma no_remote_no_calls (l : Logger) (lvl : zapcore.Level) (msg : string)
  (now : Time) (site : EntryCaller) (fs : list Field) :
  remoteCores l = [] ->
  List.filter is_Call (events (Logger_Log l lvl msg now site fs)) = [].
Proof.
  destruct l as [| cores ac]; [reflexivity |].
  intros Hno. rewrite Log_events. simpl in Hno.
  induction cores as [| c cores IH]; simpl; [reflexivity |].
  destruct c as [k | r]; simpl in Hno; [| discriminate].
  simpl. destruct (console_Enabled k lvl); simpl; auto.
Qed.

End WithExternals.

End zap_facts.

(** ** Conf.Write and New *)

Module logger_facts.
Import zapcore internal zap logger.

Section WithExternals.
Context `{Externals}.

Lemma New_level_set_handle (conf : Conf) (h : option Handle) :
  New_level (set_handle conf h) = New_level conf.
Proof. reflexivity. Qed.

(** [Conf.Write] always reports the whole input as written. *)
Lemma Conf_Write_result (c : option Conf) (b : bytes) :
  fst (Conf_Write c b) = (Z.of_nat (length b), nil_error).
Proof.
  unfold Conf_Write. destruct c as [c |]; [| reflexivity].
  destruct (handle c); [| reflexivity].
  destruct (json_Unmarshal_zapLog b); [| reflexivity].
  destruct (json_Marshal _); reflexivity.
Qed.

(** [New] of logger.go with only the remote sink enabled and a callback
    passed in: one record at or above the gate is one call, whose payload
    encodes an object with the five keys and the message as Content. *)
Lemma New_remote_only_one_call (conf : Conf) (h : Handle)
  (lvl : zapcore.Level) (msg : string) (now : Time) (site : EntryCaller)
  (fs : list Field) (b : bytes) :
  Console conf = false -> Remote conf = true ->
  New_level conf <= lvl ->
  let env := envelope (NewRemoteCore (New_level conf) (Some h))
               (logged_entry true lvl msg now site) fs in
  json_Marshal (remoteLog_json env) = Some b ->
  Logger_Log (fst (New (Some conf) (Some h))) lvl msg now site fs
    = (tt, [Call h b]) /\
  jkeys (remoteLog_json env) = spec.envelope_keys /\
  jlookup "Content" (remoteLog_json env) = Some (JStr msg).
Proof.
  intros Hc Hr Hlvl env Hb.
  split; [| split; reflexivity].
  unfold New. simpl. rewrite Hc, Hr. simpl.
  unfold New_finish. simpl.
  unfold Logger_Log. simpl.
  unfold Check_, Enabled, LevelEnabler_Enabled. simpl.
  change (New_level (set_handle conf (Some h))) with (New_level conf).
  destruct (Z.leb_spec (New_level conf) lvl) as [_ | Hlt]; [| lia].
  simpl. unfold Write. simpl.
  change (New_level (set_handle conf (Some h))) with (New_level conf).
  fold env. rewrite Hb. reflexivity.
Qed.

Lemma New_no_remote (conf : Conf) (handle_ : option Handle) :
  (Console conf = false /\ Remote conf = false) \/
  (Remote conf = true /\ handle_ = None /\ handle conf = None) ->
  remoteCores (fst (New (Some conf) handle_)) = [] /\
  remoteCores (fst (New_part004 (Some conf) handle_)) = [].
Proof.
  destruct conf as [co re lv ha]. simpl.
  intros [[-> ->] | [-> [-> ->]]]; unfold New, New_part004, New_finish; simpl.
  - destruct handle_, ha; split; reflexivity.
  - destruct co; split; reflexivity.
Qed.

(** C3: with Console=false and Remote=false, or with Remote=true and no
    callback (none passed to the constructor, none set on the
    configuration), the entry point either constructor returns has no
    remote sink among its members, and no emit call through it or through
    an entry point derived from it, at any severity, calls a delivery
    callback. *)
Theorem no_callback_no_remote_sink (conf : Conf) (handle_ : option Handle) :
  (Console conf = false /\ Remote conf = false) \/
  (Remote conf = true /\ handle_ = None /\ handle conf = None) ->
  (remoteCores (fst (New (Some conf) handle_)) = [] /\
   remoteCores (fst (New_part004 (Some conf) handle_)) = []) /\
  forall fss lvl msg now site fs,
    List.filter is_Call
      (events (Logger_Log (derive (fst (New (Some conf) handle_)) fss)
                 lvl msg now site fs)) = [] /\
    List.filter is_Call
      (events (Logger_Log (derive (fst (New_part004 (Some conf) handle_)) fss)
                 lvl msg now site fs)) = [].
Proof.
  intros Hcfg. destruct (New_no_remote conf handle_ Hcfg) as [Hn Hp].
  split; [split; assumption |].
  intros fss lvl msg now site fs.
  split; apply zap_facts.no_remote_no_calls;
    now apply zap_facts.remoteCores_derive.
Qed.

Lemma New_coreLevels (conf : Conf) (handle_ : option Handle) :
  Forall (eq (New_level conf)) (coreLevels (fst (New (Some conf) handle_))) /\
  Forall (eq (New_level conf))
    (coreLevels (fst (New_part004 (Some conf) handle_))).
Proof.
  destruct conf as [co re lv ha].
  unfold New, New_part004, New_finish. simpl.
  split.
  - destruct co, re, handle_, ha; simpl; repeat constructor.
  - destruct co, re, handle_, ha; simpl; repeat constructor.
Qed.

(** C9: the gate every constructed sink carries is the level block of
    [New]: info when the trimmed Level is empty, info when the trimmed
    Level does not parse, the parsed level otherwise; only the trimmed text
    is looked at; and the constructor returns an entry point all the
    same. *)
Theorem level_defaults_to_info (conf : Conf) (handle_ : option Handle) :
  (strings_TrimSpace (Level conf) = "" -> New_level conf = InfoLevel) /\
  (zapcore_ParseLevel (strings_TrimSpace (Level conf)) = None ->
   New_level conf = InfoLevel) /\
  (forall l, strings_TrimSpace (Level conf) <> "" ->
             zapcore_ParseLevel (strings_TrimSpace (Level conf)) = Some l ->
             New_level conf = l) /\
  (forall conf', strings_TrimSpace (Level conf)
                 = strings_TrimSpace (Level conf') ->
                 New_level conf = New_level conf') /\
  Forall (eq (New_level conf)) (coreLevels (fst (New (Some conf) handle_))) /\
  Forall (eq (New_level conf))
    (coreLevels (fst (New_part004 (Some conf) handle_))) /\
  (exists l conf', New (Some conf) handle_ = (l, Some conf')) /\
  (exists l conf', New_part004 (Some conf) handle_ = (l, Some conf')).
Proof.
  split; [| split; [| split; [| split; [| split; [| split; [| split]]]]]].
  - intros Hempty. unfold New_level. rewrite Hempty. reflexivity.
  - intros Hbad. unfold New_level. rewrite Hbad.
    destruct (negb _); reflexivity.
  - intros l Hne Hok. unfold New_level. rewrite Hok.
    destruct (String.eqb_spec (strings_TrimSpace (Level conf)) "");
      [contradiction | reflexivity].
  - intros conf' Heq. unfold New_level. now rewrite Heq.
  - apply New_coreLevels.
  - apply New_coreLevels.
  - unfold New. eauto.
  - unfold New_part004. eauto.
Qed.

(** C10, as amended: called with a nil configuration, either constructor
    returns the nop entry point without touching the configuration. No
    emit call through it, or through an entry point derived from it,
    leaves an event behind, so no delivery callback is called; the call
    returns at every severity but two: at panic severity it panics with
    the message, and at fatal severity it exits with status 1, as zap
    does on every entry point. *)
Theorem nil_conf_is_nop_but_for_panic_and_fatal (handle_ : option Handle) :
  New None handle_ = (NewNop, None) /\
  New_part004 None handle_ = (NewNop, None) /\
  forall fss lvl msg now site fs,
    let l := derive (fst (New None handle_)) fss in
    let l' := derive (fst (New_part004 None handle_)) fss in
    events (zap_terminal.Logger_emit l lvl msg now site fs) = [] /\
    events (zap_terminal.Logger_emit l' lvl msg now site fs) = [] /\
    (lvl <> PanicLevel -> lvl <> FatalLevel ->
     fst (zap_terminal.Logger_emit l lvl msg now site fs)
     = zap_terminal.Returns /\
     fst (zap_terminal.Logger_emit l' lvl msg now site fs)
     = zap_terminal.Returns) /\
    (lvl = PanicLevel ->
     fst (zap_terminal.Logger_emit l lvl msg now site fs)
     = zap_terminal.Panics msg /\
     fst (zap_terminal.Logger_emit l' lvl msg now site fs)
     = zap_terminal.Panics msg) /\
    (lvl = FatalLevel ->
     fst (zap_terminal.Logger_emit l lvl msg now site fs)
     = zap_terminal.Exits 1 /\
     fst (zap_terminal.Logger_emit l' lvl msg now site fs)
     = zap_terminal.Exits 1).
Proof.
  split; [reflexivity | split; [reflexivity |]].
  intros fss lvl msg now site fs. simpl.
  assert (Hnop : derive NewNop fss = NewNop).
  { unfold derive. induction fss as [| f fss IH]; simpl; [reflexivity |].
    unfold Logger_With at 2. destruct (length f =? 0)%nat; exact IH. }
  rewrite Hnop. unfold zap_terminal.Logger_emit, zap_terminal.terminal.
  simpl.
  split; [reflexivity | split; [reflexivity |]].
  split; [| split].
  - intros Hp Hf.
    destruct (Z.eqb_spec lvl PanicLevel); [contradiction |].
    destruct (Z.eqb_spec lvl FatalLevel); [contradiction |].
    split; reflexivity.
  - intros ->. split; reflexivity.
  - intros ->. split; reflexivity.
Qed.

End WithExternals.

Import reference fixtures.

(** C2, at the failing input: the constructor of src/unnamed/part_004,
    given the remote-only configuration and a callback, returns the nop
    entry point, and an info record emitted through it reaches no
    callback. The constructor of logger.go, on the same input, installs
    the remote sink and the record is one call. *)
Theorem New_part004_ignores_passed_callback :
  fst (New_part004 (Some remote_only) (Some 7%nat)) = NewNop /\
  Logger_Log (fst (New_part004 (Some remote_only) (Some 7%nat)))
    InfoLevel "hello" 0 here [] = (tt, []) /\
  exists b,
    Logger_Log (fst (New (Some remote_only) (Some 7%nat)))
      InfoLevel "hello" 0 here [] = (tt, [Call 7%nat b]) /\
    decode b = Some [("Path", JStr "cmd/main.go:42"); ("Level", JInt 1);
                     ("Content", JStr "hello"); ("TraceId", JStr "");
                     ("CreatedAt", JStr "1970-01-01 00:00:00")].
Proof.
  split; [reflexivity | split; [reflexivity |]].
  eexists. split; vm_compute; reflexivity.
Qed.

(** The remote sink of logger.go, run on the same input with the reference
    library: the witness of [New_remote_only_one_call]. *)
Lemma New_remote_only_one_call_witness :
  exists b,
    Logger_Log (fst (New (Some remote_only) (Some 7%nat)))
      InfoLevel "hello" 0 here [] = (tt, [Call 7%nat b]) /\
    decode b <> None.
Proof.
  eexists. split.
  - apply (New_remote_only_one_call remote_only 7%nat InfoLevel "hello" 0
             here []); [reflexivity | reflexivity | vm_compute; discriminate
                       | reflexivity].
  - vm_compute. discriminate.
Defined.

(** C10, the claim as stated fails at panic severity: an emit call at
    that severity through the entry point [New] returns for a nil
    configuration does not complete, it panics. *)
Lemma nil_conf_Panic_panics :
  fst (New None (Some 7%nat)) = NewNop /\
  fst (zap_terminal.Logger_emit (fst (New None (Some 7%nat)))
         PanicLevel "boom" 0 here [])
  = zap_terminal.Panics "boom".
Proof. split; reflexivity. Qed.

Example level_empty_is_info :
  New_level {| Console := true; Remote := false; Level := "";
               handle := None |} = InfoLevel.
Proof. reflexivity. Qed.

Example level_is_trimmed :
  New_level {| Console := true; Remote := false; Level := "  warn ";
               handle := None |} = WarnLevel.
Proof. reflexivity. Qed.

Example level_unparsable_is_info :
  New_level {| Console := true; Remote := false; Level := "verbose";
               handle := None |} = InfoLevel.
Proof. reflexivity. Qed.

Lemma level_defaults_to_info_witness :
  New_level {| Console := true; Remote := true; Level := "verbose";
               handle := None |} = InfoLevel /\
  New_level {| Console := true; Remote := true; Level := " error ";
               handle := None |} = ErrorLevel /\
  Forall (eq InfoLevel)
    (coreLevels (fst (New (Some {| Console := true; Remote := true;
                                   Level := "verbose"; handle := None |})
                        (Some 7%nat)))).
Proof.
  split; [| split].
  - pose proof (level_defaults_to_info
                  {| Console := true; Remote := true; Level := "verbose";
                     handle := None |} None) as (_ & Hbad & _).
    apply Hbad. reflexivity.
  - pose proof (level_defaults_to_info
                  {| Console := true; Remote := true; Level := " error ";
                     handle := None |} None) as (_ & _ & Hok & _).
    apply Hok; [vm_compute; discriminate | reflexivity].
  - pose proof (level_defaults_to_info
                  {| Console := true; Remote := true; Level := "verbose";
                     handle := None |} (Some 7%nat)) as (_ & _ & _ & _ & Hall & _).
    exact Hall.
Defined.

Lemma no_callback_no_remote_sink_witness :
  ((Console remote_only = false /\ Remote remote_only = false) \/
   (Remote remote_only = true /\ @None Handle = None
    /\ handle remote_only = None)) /\
  ((remoteCores (fst (New (Some remote_only) None)) = [] /\
    remoteCores (fst (New_part004 (Some remote_only) None)) = []) /\
   forall fss lvl msg now site fs,
     List.filter is_Call
       (events (Logger_Log (derive (fst (New (Some remote_only) None)) fss)
                  lvl msg now site fs)) = [] /\
     List.filter is_Call
       (events (Logger_Log
                  (derive (fst (New_part004 (Some remote_only) None)) fss)
                  lvl msg now site fs)) = []).
Proof.
  split.
  - right. repeat split.
  - apply (no_callback_no_remote_sink remote_only None).
    right. repeat split.
Defined.

End logger_facts.

(** ** Slices: [With] copies, it does not share *)

Module slices_facts.
Import zapcore slices.

Lemma cells_length (σ : gmap loc (list Field)) (s : slice) :
  backed σ s -> length (cells σ s) = len s.
Proof.
  unfold backed, cells. intros [Hle Hs].
  destruct (array s) as [a |]; simpl.
  - destruct Hs as (arr & -> & Hroom). simpl.
    rewrite length_take, length_drop. lia.
  - lia.
Qed.

(** Reading a slice only looks at its own array. *)
Lemma cells_frame (σ σ' : gmap loc (list Field)) (s : slice) :
  (forall a, array s = Some a -> σ' !! a = σ !! a) ->
  cells σ' s = cells σ s.
Proof.
  unfold cells. intros Hsame. destruct (array s) as [a |]; [| reflexivity].
  now rewrite (Hsame a eq_refl).
Qed.

Lemma backed_frame (σ σ' : gmap loc (list Field)) (s : slice) :
  (forall a, array s = Some a -> σ' !! a = σ !! a) ->
  backed σ s -> backed σ' s.
Proof.
  unfold backed. intros Hsame [Hle Hs]. split; [exact Hle |].
  destruct (array s) as [a |]; [| exact Hs].
  rewrite (Hsame a eq_refl). exact Hs.
Qed.

Lemma backed_dom (σ : gmap loc (list Field)) (s : slice) (a : loc) :
  backed σ s -> array s = Some a -> a ∈ dom σ.
Proof.
  unfold backed. intros [_ Hs] Ha. rewrite Ha in Hs.
  destruct Hs as (arr & Harr & _). apply elem_of_dom. eauto.
Qed.

Section Append.
Variable slack : nat -> nat -> nat.

Lemma append_spec (σ σ' : gmap loc (list Field)) (s s' : slice)
  (xs : list Field) :
  backed σ s ->
  append slack σ s xs = (σ', s') ->
  cells σ' s' = cells σ s ++ xs /\
  backed σ' s' /\
  (forall a, a ∈ dom σ -> array s <> Some a -> σ' !! a = σ !! a) /\
  (array s' = array s \/ exists a, array s' = Some a /\ a ∉ dom σ) /\
  (forall a, a ∈ dom σ -> a ∈ dom σ').
Proof.
  intros Hb Happ. pose proof (cells_length σ s Hb) as Hlen.
  unfold append in Happ.
  destruct (Nat.leb_spec (len s + length xs) (cap s)) as [Hfit | Hgrow].
  - destruct (array s) as [a |] eqn:Ha.
    + injection Happ as <- <-.
      destruct Hb as [Hle Hs]. rewrite Ha in Hs.
      destruct Hs as (arr & Harr & Hroom).
      unfold cells in *. rewrite Ha in *. simpl in *.
      rewrite Harr in *. simpl in *. rewrite lookup_insert_eq. simpl.
      repeat split; simpl.
      * rewrite drop_app_le by (rewrite length_take; lia).
        rewrite <- take_drop_commute.
        rewrite app_assoc, take_app_length'; [reflexivity |].
        rewrite length_app, Hlen. reflexivity.
      * lia.
      * eexists; split; [apply lookup_insert_eq |].
        rewrite !length_app, length_take, length_drop. lia.
      * intros a' _ Hne. apply lookup_insert_ne. congruence.
      * now left.
      * intros a' Ha'. rewrite dom_insert_L. set_solver.
    + injection Happ as <- <-.
      assert (xs = []) as ->.
      { destruct Hb as [Hle Hs]. rewrite Ha in Hs.
        destruct xs; [reflexivity | simpl in Hfit; lia]. }
      rewrite app_nil_r. repeat split; try apply Hb; auto.
  - injection Happ as <- <-.
    pose proof (is_fresh (dom σ)) as Hfresh.
    set (a := fresh (dom σ)) in *.
    unfold cells at 1. simpl. rewrite lookup_insert_eq. simpl.
    repeat split; simpl.
    + rewrite drop_0, app_assoc, take_app_length'; [reflexivity |].
      rewrite length_app, Hlen. reflexivity.
    + lia.
    + eexists; split; [apply lookup_insert_eq |].
      rewrite !length_app, Hlen, length_replicate. lia.
    + intros a' Ha' _. apply lookup_insert_ne. intros ->. contradiction.
    + right. eauto.
    + intros a' Ha'. rewrite dom_insert_L. set_solver.
Qed.

Lemma backed_nil (σ : gmap loc (list Field)) : backed σ nil_slice.
Proof. split; simpl; reflexivity. Qed.

(** One call of [With] with a non-empty field list. *)
Lemma With_spec (σ σ' : gmap loc (list Field)) (c next : remoteCore)
  (fs : slice) :
  backed σ (fields c) -> backed σ fs -> len fs <> 0%nat ->
  With slack σ c fs = (σ', next) ->
  cells σ' (fields next) = cells σ (fields c) ++ cells σ fs /\
  level next = level c /\ handle next = handle c /\
  backed σ' (fields next) /\
  (forall a, a ∈ dom σ -> σ' !! a = σ !! a) /\
  (exists a, array (fields next) = Some a /\ a ∉ dom σ).
Proof.
  intros Hc Hfs Hne HW. unfold With in HW.
  destruct (Nat.eqb_spec (len fs) 0) as [| _]; [contradiction |].
  destruct (append slack σ nil_slice (cells σ (fields c))) as [σ1 s1] eqn:E1.
  destruct (append slack σ1 s1 (cells σ1 fs)) as [σ2 s2] eqn:E2.
  injection HW as <- <-. simpl.
  destruct (append_spec _ _ _ _ _ (backed_nil σ) E1)
    as (Hcells1 & Hb1 & Hframe1 & Hown1 & Hmono1).
  destruct (append_spec _ _ _ _ _ Hb1 E2)
    as (Hcells2 & Hb2 & Hframe2 & Hown2 & Hmono2).
  assert (Hold1 : forall a, a ∈ dom σ -> σ1 !! a = σ !! a).
  { intros a Ha. apply Hframe1; [exact Ha | discriminate]. }
  assert (Hs1 : forall a, a ∈ dom σ -> array s1 <> Some a).
  { intros a Ha Heq. destruct Hown1 as [Hnil | (a1 & Ha1 & Hfresh)].
    - rewrite Heq in Hnil. discriminate.
    - rewrite Heq in Ha1. injection Ha1 as ->. contradiction. }
  assert (Hfs1 : cells σ1 fs = cells σ fs).
  { apply cells_frame. intros a Ha. apply Hold1.
    eapply backed_dom; eauto. }
  assert (Hold2 : forall a, a ∈ dom σ -> σ2 !! a = σ !! a).
  { intros a Ha. rewrite Hframe2; auto. }
  split; [rewrite Hcells2, Hcells1, Hfs1; reflexivity |].
  do 4 (split; [solve [auto] |]).
  destruct (array s2) as [a2 |] eqn:Ha2.
    + exists a2. split; [reflexivity |]. intros Hin.
      destruct Hown2 as [Hsame | (a' & Ha' & Hfresh)].
      * apply (Hs1 a2 Hin). now rewrite <- Hsame.
      * injection Ha' as ->. apply Hfresh, Hmono1, Hin.
    + exfalso. pose proof (cells_length _ _ Hb2) as Hl.
      pose proof (cells_length _ _ Hfs) as Hlfs.
      rewrite Hcells2, Hfs1, length_app, Hlfs in Hl.
      destruct Hb2 as [Hle Hcap]. rewrite Ha2 in Hcap. lia.
Qed.

(** C7: for a non-empty field list, [With] returns a handle whose standing
    fields are those of the original followed by the new ones in order;
    the original reads as before, and so does every slice that lived
    before the call. Two handles derived from one original each read the
    original's fields followed by their own, also after the other was
    derived, and neither shares a backing array with the other or with the
    original. *)
Theorem With_keeps_handles_apart (σ σ1 σ2 : gmap loc (list Field))
  (c n1 n2 : remoteCore) (fs1 fs2 : slice) :
  backed σ (fields c) -> backed σ fs1 -> backed σ fs2 ->
  len fs1 <> 0%nat -> len fs2 <> 0%nat ->
  With slack σ c fs1 = (σ1, n1) ->
  With slack σ1 c fs2 = (σ2, n2) ->
  cells σ1 (fields n1) = cells σ (fields c) ++ cells σ fs1 /\
  cells σ1 (fields c) = cells σ (fields c) /\
  (forall s, backed σ s -> cells σ1 s = cells σ s) /\
  contents σ1 n1 = internal.With (contents σ c) (cells σ fs1) /\
  cells σ2 (fields n1) = cells σ (fields c) ++ cells σ fs1 /\
  cells σ2 (fields n2) = cells σ (fields c) ++ cells σ fs2 /\
  cells σ2 (fields c) = cells σ (fields c) /\
  array (fields n1) <> array (fields n2) /\
  array (fields n1) <> array (fields c) /\
  array (fields n2) <> array (fields c).
Proof.
  intros Hc Hfs1 Hfs2 Hne1 Hne2 HW1 HW2.
  destruct (With_spec _ _ _ _ _ Hc Hfs1 Hne1 HW1)
    as (Hn1 & Hl1 & Hh1 & Hb1 & Hold1 & (a1 & Ha1 & Hfresh1)).
  assert (Hkeep1 : forall s, backed σ s -> cells σ1 s = cells σ s).
  { intros s Hs. apply cells_frame. intros a Ha. apply Hold1.
    eapply backed_dom; eauto. }
  assert (Hback1 : forall s, backed σ s -> backed σ1 s).
  { intros s Hs. eapply backed_frame; [| exact Hs].
    intros a Ha. apply Hold1. eapply backed_dom; eauto. }
  destruct (With_spec _ _ _ _ _ (Hback1 _ Hc) (Hback1 _ Hfs2) Hne2 HW2)
    as (Hn2 & Hl2 & Hh2 & Hb2 & Hold2 & (a2 & Ha2 & Hfresh2)).
  assert (Hkeep2 : forall s, backed σ1 s -> cells σ2 s = cells σ1 s).
  { intros s Hs. apply cells_frame. intros a Ha. apply Hold2.
    eapply backed_dom; eauto. }
  assert (Hdom1 : a1 ∈ dom σ1) by (eapply backed_dom; eauto).
  split; [exact Hn1 |].
  split; [now apply Hkeep1 |].
  split; [exact Hkeep1 |].
  split.
  { unfold contents, internal.With. simpl.
    pose proof (cells_length _ _ Hfs1) as Hlen.
    destruct (Nat.eqb_spec (length (cells σ fs1)) 0) as [Hz | _]; [lia |].
    rewrite Hn1, Hl1, Hh1. reflexivity. }
  split; [rewrite Hkeep2 by exact Hb1; exact Hn1 |].
  split; [rewrite Hn2, !Hkeep1 by assumption; reflexivity |].
  split; [rewrite Hkeep2, Hkeep1 by auto; reflexivity |].
  split; [rewrite Ha1, Ha2; intros [= ->]; contradiction |].
  split.
  - rewrite Ha1. intros Heq. apply Hfresh1.
    eapply backed_dom; [exact Hc | now symmetry].
  - rewrite Ha2. intros Heq. apply Hfresh2.
    eapply backed_dom; [exact (Hback1 _ Hc) | now symmetry].
Qed.

End Append.

Import fixtures.

Lemma store0_backed :
  backed store0 (fields core0) /\ backed store0 arg1 /\ backed store0 arg2.
Proof.
  repeat split; simpl; try lia; eexists; (split; [reflexivity | simpl; lia]).
Qed.

Lemma With_keeps_handles_apart_witness :
  let r1 := With double store0 core0 arg1 in
  let r2 := With double (fst r1) core0 arg2 in
  cells (fst r1) (fields (snd r1)) = [svc; one] /\
  cells (fst r2) (fields (snd r1)) = [svc; one] /\
  cells (fst r2) (fields (snd r2)) = [svc; two] /\
  cells (fst r2) (fields core0) = [svc].
Proof.
  intros r1 r2.
  destruct store0_backed as (Hc & H1 & H2).
  pose proof (With_keeps_handles_apart double store0 (fst r1) (fst r2)
                core0 (snd r1) (snd r2) arg1 arg2 Hc H1 H2
                ltac:(discriminate) ltac:(discriminate)
                (surjective_pairing r1) (surjective_pairing r2))
    as (Hn1 & _ & _ & _ & Hs1 & Hs2 & Hc2 & _).
  repeat split; assumption.
Defined.

(** Had [With] appended to [c.fields] itself, the second handle would have
    overwritten the field of the first: the sharing the copy avoids. *)
Example With_shared_leaks :
  let r1 := With_shared double store0 core0 arg1 in
  let r2 := With_shared double (fst r1) core0 arg2 in
  cells (fst r1) (fields (snd r1)) = [svc; one] /\
  cells (fst r2) (fields (snd r1)) = [svc; two].
Proof. split; vm_compute; reflexivity. Qed.

End slices_facts.

(** ** The async relay *)

Module relay_facts.
Import relay.

Lemma run_app (st : State) (xs ys : list Action) :
  run st (xs ++ ys) = run (run st xs) ys.
Proof. unfold run. apply fold_left_app. Qed.

Lemma Write_result (st : State) (p : bytes) :
  snd (Write st p) = (Z.of_nat (length p), nil_error).
Proof. unfold Write. destruct (try_send st _); reflexivity. Qed.

Ltac shape_with w :=
  exists w; simpl;
  repeat match goal with H : workers _ = _ |- _ => rewrite H end; simpl;
  rewrite ?length_app; simpl;
  repeat split; try discriminate; try congruence; simpl in *; try lia.

Lemma NewAsyncLogger_shape (n : Z) (h : option Handle) (st0 : State) :
  NewAsyncLogger n h = Some st0 -> shape st0.
Proof.
  unfold NewAsyncLogger. destruct (n <? 0); [discriminate |].
  intros [= <-]. shape_with AtRange.
Qed.

Lemma shape_step (st : State) (a : Action) : shape st -> shape (step st a).
Proof.
  intros (w & Hw & Hpark & Hlen). destruct a as [p | i]; simpl.
  - unfold Write, try_send. rewrite Hw. simpl.
    destruct w; simpl;
      try (destruct (Nat.ltb_spec (length (queue st)) (size st)); simpl).
    all: first [ solve [shape_with AtRange]
               | solve [shape_with (Received ([] ++ p))]
               | solve [shape_with (Received b)]
               | solve [shape_with (InHandle b)] ].
  - unfold init_step. rewrite Hw.
    destruct i as [| i]; simpl; [| exists w; auto].
    destruct w; simpl.
    + destruct (queue st) as [| b rest] eqn:Hq; simpl.
      * shape_with Parked.
      * shape_with (Received b).
    + shape_with Parked; auto.
    + destruct (handle st); simpl;
        [shape_with (InHandle b) | shape_with AtRange].
    + destruct (handle st); simpl; shape_with AtRange.
Qed.

Lemma shape_run (st : State) (acts : list Action) :
  shape st -> shape (run st acts).
Proof.
  revert st. induction acts as [| a acts IH]; intros st Hst; simpl.
  - exact Hst.
  - apply IH, shape_step, Hst.
Qed.

Lemma completed_snoc (h : Handle) (done : list bytes) (b : bytes) :
  completed h (done ++ [b]) = completed h done ++ [CallStart h b; CallEnd h b].
Proof. unfold completed. rewrite flat_map_app. simpl. reflexivity. Qed.

Lemma calls_completed (h : Handle) (done : list bytes) (t : list Ev) :
  calls (completed h done ++ t) = done ++ calls t.
Proof.
  induction done as [| b done IH]; simpl; [reflexivity |]. now rewrite IH.
Qed.

Lemma serialized_completed (h : Handle) (done : list bytes) (w : Worker) :
  serialized (completed h done ++ current h w).
Proof.
  induction done as [| b done IH]; simpl.
  - destruct w; simpl; constructor.
  - constructor. exact IH.
Qed.

Lemma In_completed (h : Handle) (done : list bytes) (w : Worker) (e : Ev) :
  In e (completed h done ++ current h w) ->
  exists b, e = CallStart h b \/ e = CallEnd h b.
Proof.
  intros Hin. apply in_app_or in Hin. destruct Hin as [Hin | Hin].
  - unfold completed in Hin. apply in_flat_map in Hin.
    destruct Hin as (b & _ & [<- | [<- | []]]); eauto.
  - destruct w; simpl in Hin; try contradiction.
    destruct Hin as [<- | []]. eauto.
Qed.

Lemma NewAsyncLogger_delivery (n : Z) (h : Handle) (st0 : State) :
  NewAsyncLogger n (Some h) = Some st0 -> delivery h st0.
Proof.
  unfold NewAsyncLogger. destruct (n <? 0); [discriminate |].
  intros [= <-]. split; [reflexivity |]. exists AtRange, []. auto.
Qed.

Lemma delivery_step (h : Handle) (st : State) (a : Action) :
  shape st -> delivery h st -> delivery h (step st a).
Proof.
  intros (w0 & Hw0 & Hpark & _) (Hh & w & done & Hw & Htr & Hacc).
  rewrite Hw in Hw0. injection Hw0 as <-.
  destruct a as [p | i]; simpl.
  - unfold Write, try_send. rewrite Hw. simpl.
    destruct w; simpl;
      try (destruct (Nat.ltb_spec (length (queue st)) (size st)); simpl).
    all: split; [exact Hh |].
    all: try (pose proof (Hpark eq_refl) as Hq; rewrite Hq in * ).
    all: eexists; exists done;
      (split; [simpl; rewrite ?Hw; reflexivity |]);
      simpl in *; rewrite ?app_nil_r in *; rewrite Hacc;
      rewrite <- ?app_assoc; simpl; auto.
  - unfold init_step. rewrite Hw.
    destruct i as [| i]; simpl;
      [| split; [exact Hh | exists w, done; auto]].
    destruct w; simpl; rewrite ?Hh; simpl.
    + destruct (queue st) as [| b rest] eqn:Hq; simpl;
        (split; [solve [auto] |]); eexists; exists done; simpl;
        rewrite ?Hw, ?Hq; simpl; (split; [reflexivity |]); auto.
    + split; [exact Hh |]. exists Parked, done. auto.
    + split; [solve [auto] |]. exists (InHandle b), done. simpl.
      rewrite Htr. simpl. rewrite app_nil_r. auto.
    + split; [solve [auto] |]. exists AtRange, (done ++ [b]). simpl.
      rewrite Htr, Hacc. simpl.
      rewrite completed_snoc, app_nil_r, <- !app_assoc. auto.
Qed.

Lemma delivery_run (h : Handle) (st : State) (acts : list Action) :
  shape st -> delivery h st -> delivery h (run st acts).
Proof.
  revert st. induction acts as [| a acts IH]; intros st Hs Hd; simpl.
  - exact Hd.
  - apply IH; [apply shape_step, Hs | apply delivery_step; assumption].
Qed.

(** Each step of the goroutine brings it one step closer to parking on an
    empty queue, and accepts nothing. *)
Lemma remaining_step (h : Handle) (st : State) (m : nat) :
  shape st -> handle st = Some h -> remaining st = S m ->
  remaining (init_step st 0) = m /\
  accepted (init_step st 0) = accepted st.
Proof.
  intros (w & Hw & Hpark & _) Hh Hrem.
  unfold remaining in *. unfold init_step. rewrite Hw in *. simpl.
  destruct w; simpl in *.
  - destruct (queue st) as [| b rest] eqn:Hq; simpl in *;
      rewrite ?Hw, ?Hq; simpl; (split; [lia | reflexivity]).
  - rewrite (Hpark eq_refl) in Hrem. simpl in Hrem. lia.
  - rewrite Hh. simpl. rewrite ?Hw. simpl. split; [lia | reflexivity].
  - rewrite Hh. simpl. rewrite ?Hw. simpl. split; [lia | reflexivity].
Qed.

Lemma drain (h : Handle) (m : nat) (st : State) :
  shape st -> handle st = Some h -> remaining st = m ->
  remaining (run st (replicate m (Consume 0%nat))) = 0%nat /\
  accepted (run st (replicate m (Consume 0%nat))) = accepted st.
Proof.
  revert st. induction m as [| m IH]; intros st Hs Hh Hrem; simpl.
  - auto.
  - destruct (remaining_step h st m Hs Hh Hrem) as [Hm Hacc].
    assert (Hh' : handle (init_step st 0) = Some h).
    { clear - Hh. unfold init_step.
      destruct (workers st !! 0%nat) as [[| | b | b] |]; simpl; auto.
      - destruct (queue st); auto.
      - rewrite Hh. auto.
      - rewrite Hh. auto. }
    destruct (IH (init_step st 0) (shape_step st (Consume 0%nat) Hs) Hh' Hm)
      as [Hz Ha].
    split; [exact Hz | now rewrite Ha].
Qed.

Lemma size_step (st : State) (a : Action) : size (step st a) = size st.
Proof.
  destruct a as [q | i]; simpl.
  - unfold Write, try_send.
    destruct (find_parked (workers st)); simpl; [reflexivity |].
    destruct (length (queue st) <? size st)%nat; reflexivity.
  - unfold init_step.
    destruct (workers st !! i) as [[| | b | b] |]; simpl; auto.
    + destruct (queue st); reflexivity.
    + destruct (handle st); reflexivity.
    + destruct (handle st); reflexivity.
Qed.

Lemma size_run (st : State) (acts : list Action) :
  size (run st acts) = size st.
Proof.
  revert st. induction acts as [| a acts IH]; intros st; simpl;
    [reflexivity |].
  now rewrite IH, size_step.
Qed.

Lemma NewAsyncLogger_size (n : Z) (h : option Handle) (st0 : State) :
  NewAsyncLogger n h = Some st0 -> 0 <= n /\ size st0 = Z.to_nat n.
Proof.
  unfold NewAsyncLogger. destruct (Z.ltb_spec n 0); [discriminate |].
  intros [= <-]. auto.
Qed.

(** C5: [Write] reports the whole payload written and a nil error in
    every state of the relay and for every payload; it is one step that
    always completes. When the send would block (the buffer is full and no
    receiver waits) the state is left as it was: the payload is dropped
    and the caller sees the same result. Otherwise the payload is
    accepted. In every state reached from [NewAsyncLogger] with a positive
    size, the send blocks exactly when the queue holds [size] payloads;
    with size zero there is no buffer, and it blocks exactly when the
    consumer is not waiting in its receive. *)
Theorem Write_always_reports_success (st : State) (p : bytes) :
  snd (Write st p) = (Z.of_nat (length p), nil_error) /\
  (send_blocks st -> fst (Write st p) = st) /\
  (~ send_blocks st -> accepted (fst (Write st p)) = accepted st ++ [p]) /\
  (forall n h st0 acts,
      NewAsyncLogger n h = Some st0 -> st = run st0 acts -> 0 < n ->
      (send_blocks st <-> length (queue st) = size st)) /\
  (forall h st0 acts,
      NewAsyncLogger 0 h = Some st0 -> st = run st0 acts ->
      (send_blocks st <-> workers st <> [Parked])).
Proof.
  split; [apply Write_result |].
  split; [| split; [| split]].
  - intros [Hnone Hfull]. unfold Write, try_send. rewrite Hnone.
    destruct (Nat.ltb_spec (length (queue st)) (size st)); [lia |].
    reflexivity.
  - intros Hfree. unfold Write, try_send.
    destruct (find_parked (workers st)) as [i |] eqn:Hf; simpl.
    + reflexivity.
    + destruct (Nat.ltb_spec (length (queue st)) (size st)); simpl.
      * reflexivity.
      * exfalso. apply Hfree. split; assumption.
  - intros n h st0 acts Hnew -> Hpos.
    pose proof (shape_run st0 acts (NewAsyncLogger_shape n h st0 Hnew))
      as (w & Hw & Hpark & Hlen).
    pose proof (NewAsyncLogger_size n h st0 Hnew) as [_ Hsz].
    pose proof (size_run st0 acts) as Hkeep.
    unfold send_blocks. rewrite Hw. split.
    + intros [_ Hfull]. lia.
    + intros Heq. split; [| lia].
      destruct w; simpl; try reflexivity.
      rewrite (Hpark eq_refl) in Heq. simpl in Heq. lia.
  - intros h st0 acts Hnew ->.
    pose proof (shape_run st0 acts (NewAsyncLogger_shape 0 h st0 Hnew))
      as (w & Hw & Hpark & Hlen).
    pose proof (NewAsyncLogger_size 0 h st0 Hnew) as [_ Hsz].
    pose proof (size_run st0 acts) as Hkeep. simpl in Hsz.
    unfold send_blocks. rewrite Hw. split.
    + intros [Hnone _] [= ->]. discriminate.
    + intros Hne. split; [| lia].
      destruct w; simpl; try reflexivity. congruence.
Qed.

(** C8: in every state reached from [NewAsyncLogger] with a callback,
    under every interleaving of producers and the consumer: there is one
    consumer goroutine; the payloads the callback was called with,
    followed by the one the consumer holds and by the queue, are the
    accepted payloads in the order they were accepted; the calls do not
    overlap and all go to the callback; and the consumer, left to run,
    calls the callback with every accepted payload and parks on the empty
    queue. *)
Theorem relay_delivers_in_order_one_at_a_time (n : Z) (h : Handle)
  (st0 : State) (acts : list Action) :
  NewAsyncLogger n (Some h) = Some st0 ->
  let st := run st0 acts in
  (exists w, workers st = [w] /\
             calls (trace st) ++ in_hand w ++ queue st = accepted st) /\
  serialized (trace st) /\
  (forall e, In e (trace st) ->
             exists b, e = CallStart h b \/ e = CallEnd h b) /\
  let st' := run st (replicate (remaining st) (Consume 0%nat)) in
  accepted st' = accepted st /\
  calls (trace st') = accepted st /\
  queue st' = [] /\
  workers st' = [Parked] /\
  exists done, trace st' = completed h done.
Proof.
  intros Hnew st.
  pose proof (shape_run st0 acts (NewAsyncLogger_shape _ _ _ Hnew)) as Hs.
  pose proof (delivery_run h st0 acts (NewAsyncLogger_shape _ _ _ Hnew)
                (NewAsyncLogger_delivery _ _ _ Hnew)) as Hd.
  fold st in Hs, Hd.
  pose proof Hd as (Hh & w & done & Hw & Htr & Hacc).
  split.
  { exists w. split; [exact Hw |].
    rewrite Htr, Hacc, calls_completed.
    destruct w; simpl; rewrite ?app_nil_r, <- ?app_assoc; reflexivity. }
  split; [rewrite Htr; apply serialized_completed |].
  split; [intros e He; rewrite Htr in He; eapply In_completed; eauto |].
  intros st'.
  destruct (drain h (remaining st) st Hs Hh eq_refl) as [Hz Ha].
  fold st' in Hz, Ha.
  pose proof (shape_run st (replicate (remaining st) (Consume 0%nat)) Hs)
    as Hs'.
  pose proof (delivery_run h st (replicate (remaining st) (Consume 0%nat))
                Hs Hd) as Hd'.
  fold st' in Hs', Hd'.
  destruct Hd' as (_ & w' & done' & Hw' & Htr' & Hacc').
  unfold remaining in Hz. rewrite Hw' in Hz.
  assert (Hq : queue st' = []) by (destruct (queue st'); [reflexivity | simpl in Hz; lia]).
  assert (Hp : w' = Parked) by (destruct w'; simpl in Hz; solve [reflexivity | lia]).
  subst w'. simpl in *. rewrite Hq in Hacc'. rewrite !app_nil_r in *.
  split; [exact Ha |].
  split; [rewrite Htr', <- Ha, Hacc'; rewrite <- (app_nil_r (completed h done')); rewrite calls_completed; apply app_nil_r |].
  split; [exact Hq |].
  split; [exact Hw' |].
  exists done'. exact Htr'.
Qed.

Import fixtures.

Lemma relay_delivers_in_order_one_at_a_time_witness :
  NewAsyncLogger 2 (Some 7%nat) = Some relay0 /\
  let st := run relay0 schedule in
  accepted st = [p1; p2; p4] /\
  serialized (trace st) /\
  calls (trace (run st (replicate (remaining st) (Consume 0%nat))))
  = [p1; p2; p4].
Proof.
  split; [reflexivity |].
  intros st.
  pose proof (relay_delivers_in_order_one_at_a_time 2 7%nat relay0 schedule
                eq_refl) as (_ & Hser & _ & _ & Hcalls & _).
  split; [reflexivity | split; [exact Hser | exact Hcalls]].
Defined.

Lemma Write_always_reports_success_witness :
  let full := run relay0 [Produce p1; Produce p2] in
  send_blocks full /\
  Write full p3 = (full, (Z.of_nat (length p3), nil_error)) /\
  ~ send_blocks relay0 /\
  accepted (fst (Write relay0 p1)) = [p1].
Proof.
  intros full.
  assert (Hfull : send_blocks full) by (split; [reflexivity | simpl; lia]).
  assert (Hfree : ~ send_blocks relay0) by (intros [_ Hle]; simpl in Hle; lia).
  pose proof (Write_always_reports_success full p3) as (Hres & Hdrop & _).
  pose proof (Write_always_reports_success relay0 p1) as (_ & _ & Hacc & _).
  split; [exact Hfull |].
  split; [rewrite (surjective_pairing (Write full p3)), Hres, (Hdrop Hfull);
          reflexivity |].
  split; [exact Hfree | exact (Hacc Hfree)].
Defined.

End relay_facts.

(** ** More on the remote core *)

Module remote_more.
Import zapcore internal level_names.

(** X1: [With] composes: deriving twice is deriving once with both field
    lists, and deriving with no field is the core itself. *)
Theorem With_composes (c : remoteCore) (a b : list Field) :
  With (With c a) b = With c (a ++ b) /\ With c [] = c.
Proof.
  split; [| reflexivity].
  destruct c as [lv h fs]. destruct a as [| x a], b as [| y b];
    unfold With; simpl; try reflexivity.
  - now rewrite app_nil_r.
  - now rewrite <- app_assoc.
Qed.

Lemma scanTraceId_app_found (l r : list Field) :
  (exists f, In f l /\ spec.is_trace_field f = true) ->
  scanTraceId (l ++ r) = scanTraceId l.
Proof.
  induction l as [| g l IH]; intros (f & Hin & Hf); [destruct Hin |].
  simpl. fold (spec.is_trace_field g).
  destruct (spec.is_trace_field g) eqn:Hg; [reflexivity |].
  apply IH. destruct Hin as [-> | Hin]; [congruence | eauto].
Qed.

Lemma scanTraceId_filter (fs : list Field) :
  scanTraceId fs = scanTraceId (List.filter spec.is_trace_field fs).
Proof.
  induction fs as [| g fs IH]; simpl; [reflexivity |].
  fold (spec.is_trace_field g).
  destruct (spec.is_trace_field g) eqn:Hg; simpl.
  - fold (spec.is_trace_field g). now rewrite Hg.
  - exact IH.
Qed.

(** X5: the codes of the remote core tell the five levels apart: the code is
    0 exactly for a level outside the five, two levels with the same
    non-zero code are the same level, and no code is 2 or above 6. *)
Theorem levelToInt_tells_levels_apart :
  (forall l, levelToInt l = 0 <-> ~ coded l) /\
  (forall l l', levelToInt l = levelToInt l' -> levelToInt l <> 0 -> l = l') /\
  (forall l, In (levelToInt l) [0; 1; 3; 4; 5; 6]).
Proof.
  assert (Hcases : forall l,
             (l = DebugLevel /\ levelToInt l = 6) \/
             (l = InfoLevel /\ levelToInt l = 1) \/
             (l = WarnLevel /\ levelToInt l = 3) \/
             (l = ErrorLevel /\ levelToInt l = 4) \/
             (l = PanicLevel /\ levelToInt l = 5) \/
             (~ coded l /\ levelToInt l = 0)).
  { intros l. unfold levelToInt, coded, DebugLevel, InfoLevel, WarnLevel,
      ErrorLevel, PanicLevel.
    destruct (Z.eqb_spec l 0); [auto |].
    destruct (Z.eqb_spec l 1); [auto 6 |].
    destruct (Z.eqb_spec l 2); [auto 7 |].
    destruct (Z.eqb_spec l 4); [auto 8 |].
    destruct (Z.eqb_spec l (-1)); [auto |].
    do 5 right. split; [| reflexivity]. intros H. lia. }
  split; [| split].
  - intros l. destruct (Hcases l) as [[-> E] | [[-> E] | [[-> E] | [[-> E]
      | [[-> E] | [Hn E]]]]]]; rewrite E; split; intros H;
      try discriminate; try assumption; try reflexivity;
      exfalso; apply H; unfold coded; auto 6.
  - intros l l' Heq Hnz.
    destruct (Hcases l) as [[-> E] | [[-> E] | [[-> E] | [[-> E]
      | [[-> E] | [Hn E]]]]]];
    destruct (Hcases l') as [[-> E'] | [[-> E'] | [[-> E'] | [[-> E']
      | [[-> E'] | [Hn' E']]]]]];
    rewrite ?E, ?E' in *; try reflexivity; try discriminate; congruence.
  - intros l. destruct (Hcases l) as [[_ E] | [[_ E] | [[_ E] | [[_ E]
      | [[_ E] | [_ E]]]]]]; rewrite E; simpl; auto 8.
Qed.

(** X6: the two tables agree: under any naming of the levels that gives the
    five coded levels their lower-case names and no other level one of
    those names, the code of a level's name in model.go is the code of the
    level in the remote core. *)
Theorem tables_agree (name : zapcore.Level -> string) :
  name DebugLevel = "debug" -> name InfoLevel = "info" ->
  name WarnLevel = "warn" -> name ErrorLevel = "error" ->
  name PanicLevel = "panic" ->
  (forall l, ~ coded l -> ~ coded_name (name l)) ->
  forall l, model.levelToInt (name l) = levelToInt l.
Proof.
  intros Hd Hi Hw He Hp Hother l.
  destruct (Z.eq_dec l DebugLevel) as [-> | nd]; [now rewrite Hd |].
  destruct (Z.eq_dec l InfoLevel) as [-> | ni]; [now rewrite Hi |].
  destruct (Z.eq_dec l WarnLevel) as [-> | nw]; [now rewrite Hw |].
  destruct (Z.eq_dec l ErrorLevel) as [-> | ne]; [now rewrite He |].
  destruct (Z.eq_dec l PanicLevel) as [-> | np]; [now rewrite Hp |].
  rewrite (level_facts.remote_other l nd ni nw ne np).
  assert (Hn : ~ coded_name (name l)).
  { apply Hother. unfold coded. intuition. }
  unfold coded_name in Hn.
  apply level_facts.string_other; intros Heq; apply Hn; auto 6.
Qed.

Lemma Level_String_other (l : zapcore.Level) :
  ~ coded l -> ~ coded_name (Level_String l).
Proof.
  unfold coded, coded_name, Level_String, DebugLevel, InfoLevel, WarnLevel,
    ErrorLevel, DPanicLevel, PanicLevel, FatalLevel.
  intros Hn.
  destruct (Z.eqb_spec l (-1)); [intuition |].
  destruct (Z.eqb_spec l 0); [intuition |].
  destruct (Z.eqb_spec l 1); [intuition |].
  destruct (Z.eqb_spec l 2); [intuition |].
  destruct (Z.eqb_spec l 3); [intuition discriminate |].
  destruct (Z.eqb_spec l 4); [intuition |].
  destruct (Z.eqb_spec l 5); [intuition discriminate |].
  simpl. intuition discriminate.
Qed.

Lemma tables_agree_witness :
  (forall l, ~ coded l -> ~ coded_name (Level_String l)) /\
  (forall l, model.levelToInt (Level_String l) = levelToInt l).
Proof.
  split; [exact Level_String_other |].
  exact (tables_agree Level_String eq_refl eq_refl eq_refl eq_refl eq_refl
           Level_String_other).
Defined.

Section WithExternals.
Context `{Externals}.

Lemma envelope_With (c : remoteCore) (standing : list Field) (entry : Entry)
  (fs : list Field) :
  envelope (With c standing) entry fs = envelope c entry (standing ++ fs).
Proof.
  unfold envelope.
  rewrite !remote_facts.allFields_app, remote_facts.With_fields, app_assoc.
  reflexivity.
Qed.

(** X2: standing fields behave as fields put in front of the call-site ones:
    a core derived with [With] is enabled for the same levels and writes
    what the original writes when handed the standing fields first. *)
Theorem Write_through_With (c : remoteCore) (standing : list Field)
  (entry : Entry) (fs : list Field) :
  Write (With c standing) entry fs = Write c entry (standing ++ fs) /\
  (forall lvl, Enabled (With c standing) lvl = Enabled c lvl).
Proof.
  split.
  - unfold Write. rewrite remote_facts.With_handle, envelope_With.
    reflexivity.
  - intros lvl. unfold Enabled. now rewrite remote_facts.With_level.
Qed.

(** X3: a trace id among the standing fields wins: whatever the call site
    passes, the envelope carries the standing one. *)
Theorem standing_traceId_wins (c : remoteCore) (entry : Entry)
  (fs fs' : list Field) :
  (exists f, In f (fields c) /\ spec.is_trace_field f = true) ->
  TraceId (envelope c entry fs) = TraceId (envelope c entry fs').
Proof.
  intros Hfound. simpl. rewrite !remote_facts.allFields_app.
  now rewrite !(scanTraceId_app_found _ _ Hfound).
Qed.

(** X4: only trace-id fields matter to the envelope: fields of another name,
    or of another type under that name, can be added or removed anywhere
    without changing its TraceId. *)
Theorem traceId_ignores_other_fields (c : remoteCore) (entry : Entry)
  (fs : list Field) :
  TraceId (envelope c entry fs)
  = scanTraceId (List.filter spec.is_trace_field (fields c ++ fs)).
Proof.
  simpl. rewrite remote_facts.allFields_app. apply scanTraceId_filter.
Qed.

End WithExternals.

Import reference.

Lemma standing_traceId_wins_witness :
  let c := With (NewRemoteCore InfoLevel (Some 7%nat))
             [zap_String "service" "x"; zap_String "trace_id" "standing"] in
  let e := mkEntry InfoLevel 0 "hello" undefinedCaller in
  TraceId (envelope c e [zap_String "trace_id" "call-site"]) = "standing".
Proof.
  intros c e.
  rewrite (standing_traceId_wins c e _ []).
  - reflexivity.
  - exists (zap_String "trace_id" "standing"). split; [| reflexivity].
    simpl. auto.
Defined.

End remote_more.

(** ** More on the entry point, Conf.Write and New *)

Module logger_more.
Import zapcore internal zap logger.

Lemma coreLevels_With (l : Logger) (fs : list Field) :
  coreLevels (Logger_With l fs) = coreLevels l.
Proof.
  unfold Logger_With. destruct (length fs =? 0)%nat; [reflexivity |].
  destruct l as [| cores ac]; simpl; [reflexivity |].
  rewrite map_map. apply map_ext. intros [k | r]; simpl; [reflexivity |].
  apply remote_facts.With_level.
Qed.

Lemma coreLevels_derive (l : Logger) (fss : list (list Field)) :
  coreLevels (derive l fss) = coreLevels l.
Proof.
  unfold derive. revert l. induction fss as [| fs fss IH]; intros l; simpl.
  - reflexivity.
  - now rewrite IH, coreLevels_With.
Qed.

Lemma remoteCores_derive_map (l : Logger) (fss : list (list Field)) :
  remoteCores (derive l fss)
  = map (fun r => fold_left With fss r) (remoteCores l).
Proof.
  unfold derive. revert l. induction fss as [| fs fss IH]; intros l; simpl.
  - symmetry. apply map_id.
  - rewrite IH, zap_facts.remoteCores_With, map_map. reflexivity.
Qed.

Lemma fold_With_handle (fss : list (list Field)) (r : remoteCore) :
  internal.handle (fold_left With fss r) = internal.handle r /\
  level (fold_left With fss r) = level r.
Proof.
  revert r. induction fss as [| fs fss IH]; intros r; simpl; [auto |].
  destruct (IH (With r fs)) as [Hh Hl].
  now rewrite Hh, Hl, remote_facts.With_handle, remote_facts.With_level.
Qed.

Section WithExternals.
Context `{Externals}.

Lemma Write_calls_only (r : remoteCore) (ent : Entry) (fs : list Field) :
  List.filter is_Call (events (Write r ent fs)) = events (Write r ent fs) /\
  (length (events (Write r ent fs)) <= 1)%nat.
Proof.
  rewrite remote_facts.Write_events.
  destruct (internal.handle r); [| simpl; auto].
  destruct (json_Marshal _); simpl; auto.
Qed.

(** The callback events of one emit call are the writes of the enabled
    remote members, in order. *)
Lemma Log_calls (cores : list Core) (ac : bool) (lvl : zapcore.Level)
  (msg : string) (now : Time) (site : EntryCaller) (fs : list Field) :
  List.filter is_Call
    (events (Logger_Log (New_ cores ac) lvl msg now site fs))
  = flat_map
      (fun r => if Enabled r lvl
                then events (Write r (logged_entry ac lvl msg now site) fs)
                else [])
      (remoteCores (New_ cores ac)).
Proof.
  rewrite zap_facts.Log_events. simpl.
  induction cores as [| c cores IH]; simpl; [reflexivity |].
  destruct c as [k | r]; simpl.
  - destruct (console_Enabled k lvl); simpl; exact IH.
  - destruct (Enabled r lvl); simpl; [| exact IH].
    rewrite List.filter_app, IH.
    now rewrite (proj1 (Write_calls_only r _ fs)).
Qed.

(** A record below the gate of every member leaves no event. *)
Lemma below_all_gates (l : Logger) (lvl : zapcore.Level) (msg : string)
  (now : Time) (site : EntryCaller) (fs : list Field) :
  Forall (fun lv => lvl < lv) (coreLevels l) ->
  Logger_Log l lvl msg now site fs = (tt, []).
Proof.
  destruct l as [| cores ac]; [reflexivity |].
  intros Hall. unfold Logger_Log. rewrite zap_facts.fold_Check. simpl.
  replace (List.filter (fun c => Core_Enabled c lvl) cores) with (@nil Core);
    [reflexivity |].
  simpl in Hall. induction cores as [| c cores IH]; simpl; [reflexivity |].
  inversion Hall as [| lv lvs Hlt Hrest]; subst.
  assert (Hoff : Core_Enabled c lvl = false).
  { destruct c as [k | r]; simpl;
      unfold console_Enabled, Enabled, LevelEnabler_Enabled;
      apply Z.leb_gt; exact Hlt. }
  rewrite Hoff. apply IH. exact Hrest.
Qed.

Lemma New_remoteCores (conf : Conf) (handle_ : option Handle) :
  remoteCores (fst (New (Some conf) handle_))
  = (if Remote conf
     then match (match handle_ with
                 | Some h => Some h
                 | None => logger.handle conf
                 end) with
          | Some h => [NewRemoteCore (New_level conf) (Some h)]
          | None => []
          end
     else []).
Proof.
  destruct conf as [co re lv ha].
  destruct handle_ as [h |], ha as [h' |], co, re; reflexivity.
Qed.

Lemma New_part004_remoteCores (conf : Conf) (handle_ : option Handle) :
  remoteCores (fst (New_part004 (Some conf) handle_))
  = (if Remote conf
     then match logger.handle conf, handle_ with
          | Some _, Some h => [NewRemoteCore (New_level conf) (Some h)]
          | _, _ => []
          end
     else []).
Proof.
  destruct conf as [co re lv ha].
  destruct handle_ as [h |], ha as [h' |], co, re; reflexivity.
Qed.

(** X7: [Conf.Write] reports the whole input written whatever happens; it
    leaves no event when the receiver or its callback is nil, and
    otherwise calls the callback exactly once, with the re-encoded
    envelope when the line decodes and the envelope encodes. *)
Theorem Conf_Write_calls_once (c : option Conf) (b : bytes) :
  fst (Conf_Write c b) = (Z.of_nat (length b), nil_error) /\
  match c with
  | None => events (Conf_Write c b) = []
  | Some c' =>
      match logger.handle c' with
      | None => events (Conf_Write c b) = []
      | Some h =>
          (exists out, events (Conf_Write c b) = [Call h out]) /\
          (forall data out,
              json_Unmarshal_zapLog b = Some data ->
              json_Marshal (model.outputLog_json
                 {| model.Path := zl_Path data;
                    model.Level := model.levelToInt (zl_Level data);
                    model.Content := zl_Message data;
                    model.TraceId := zl_TraceId data;
                    model.CreatedAt := zl_CreatedAt data |}) = Some out ->
              events (Conf_Write c b) = [Call h out])
      end
  end.
Proof.
  split; [apply logger_facts.Conf_Write_result |].
  destruct c as [c' |]; [| reflexivity].
  unfold Conf_Write. destruct (logger.handle c') as [h |]; [| reflexivity].
  split.
  - destruct (json_Unmarshal_zapLog b) as [data |]; [| eauto].
    destruct (json_Marshal _); eauto.
  - intros data out Hdec Henc. rewrite Hdec, Henc. reflexivity.
Qed.

(** X8: [New] of logger.go: the callback in effect is the one passed, or the
    one already on the configuration when none is passed; the
    configuration leaves the call holding it; the remote sink is installed
    exactly under Remote with a callback in effect; and calling [New]
    again on the configuration it left, passing no callback, builds the
    same entry point. *)
Theorem New_effective_handle (conf : Conf) (handle_ : option Handle) :
  let eff := match handle_ with
             | Some h => Some h
             | None => logger.handle conf
             end in
  snd (New (Some conf) handle_) = Some (set_handle conf eff) /\
  remoteCores (fst (New (Some conf) handle_))
  = (if Remote conf
     then match eff with
          | Some h => [NewRemoteCore (New_level conf) (Some h)]
          | None => []
          end
     else []) /\
  New (snd (New (Some conf) handle_)) None = New (Some conf) handle_.
Proof.
  destruct conf as [co re lv ha].
  destruct handle_ as [h |], ha as [h' |], co, re; simpl;
    repeat split; reflexivity.
Qed.

(** X9: the constructor of src/unnamed/part_004 installs the remote sink
    exactly when Remote is set, the configuration already held a callback
    and one is passed as well. It builds the entry point [New] of
    logger.go builds whenever Remote is off or a callback is both held
    and passed or neither; when exactly one of the two is there under
    Remote, it installs no remote sink where logger.go installs one. *)
Theorem New_part004_against_New (conf : Conf) (handle_ : option Handle) :
  remoteCores (fst (New_part004 (Some conf) handle_))
  = (if Remote conf
     then match logger.handle conf, handle_ with
          | Some _, Some h => [NewRemoteCore (New_level conf) (Some h)]
          | _, _ => []
          end
     else []) /\
  (Remote conf = false \/
   (logger.handle conf <> None /\ handle_ <> None) \/
   (logger.handle conf = None /\ handle_ = None) ->
   fst (New_part004 (Some conf) handle_) = fst (New (Some conf) handle_)) /\
  (Remote conf = true ->
   (logger.handle conf = None /\ handle_ <> None) \/
   (logger.handle conf <> None /\ handle_ = None) ->
   remoteCores (fst (New_part004 (Some conf) handle_)) = [] /\
   remoteCores (fst (New (Some conf) handle_)) <> []).
Proof.
  destruct conf as [co re lv ha].
  split; [| split].
  - destruct handle_ as [h |], ha as [h' |], co, re; reflexivity.
  - simpl. intros [-> | [[Ha Hh] | [-> ->]]].
    + destruct handle_, ha, co; reflexivity.
    + destruct handle_ as [h |], ha as [h' |]; try contradiction.
      destruct co, re; reflexivity.
    + destruct co, re; reflexivity.
  - simpl. intros -> [[-> Hh] | [Ha ->]].
    + destruct handle_ as [h |]; [| contradiction].
      destruct co; split; simpl; [reflexivity | discriminate
                                 | reflexivity | discriminate].
    + destruct ha as [h' |]; [| contradiction].
      destruct co; split; simpl; [reflexivity | discriminate
                                 | reflexivity | discriminate].
Qed.

Lemma New_remoteCores_shape (conf : Conf) (handle_ : option Handle) :
  forall r,
    In r (remoteCores (fst (New (Some conf) handle_))) \/
    In r (remoteCores (fst (New_part004 (Some conf) handle_))) ->
    internal.handle r <> None /\ level r = New_level conf.
Proof.
  intros r Hin.
  rewrite New_remoteCores, New_part004_remoteCores in Hin.
  destruct (Remote conf); [| destruct Hin as [[] | []]].
  destruct Hin as [Hin | Hin].
  - destruct handle_ as [h |]; simpl in Hin.
    + destruct Hin as [<- | []]. split; [discriminate | reflexivity].
    + destruct (logger.handle conf); simpl in Hin; [| destruct Hin].
      destruct Hin as [<- | []]. split; [discriminate | reflexivity].
  - destruct (logger.handle conf), handle_; simpl in Hin;
      try destruct Hin as [<- | []]; try contradiction.
    split; [discriminate | reflexivity].
Qed.

Lemma remoteCores_at_most_one (conf : Conf) (handle_ : option Handle)
  (fss : list (list Field)) :
  (length (remoteCores (derive (fst (New (Some conf) handle_)) fss)) <= 1)%nat
  /\
  (length (remoteCores (derive (fst (New_part004 (Some conf) handle_)) fss))
   <= 1)%nat.
Proof.
  rewrite !remoteCores_derive_map, !length_map.
  rewrite New_remoteCores, New_part004_remoteCores.
  split.
  - destruct (Remote conf); [| simpl; lia].
    destruct handle_; [simpl; lia |].
    destruct (logger.handle conf); simpl; lia.
  - destruct (Remote conf); [| simpl; lia].
    destruct (logger.handle conf), handle_; simpl; lia.
Qed.

(** X10: no remote sink is ever wired without a callback: under the entry
    point either constructor returns, and under every entry point derived
    from it, there is at most one remote core, it holds a non-nil
    callback, and its gate is the level block of [New]. *)
Theorem remote_sink_always_wired (conf : Conf) (handle_ : option Handle)
  (fss : list (list Field)) :
  let l := derive (fst (New (Some conf) handle_)) fss in
  let l' := derive (fst (New_part004 (Some conf) handle_)) fss in
  (length (remoteCores l) <= 1)%nat /\
  (length (remoteCores l') <= 1)%nat /\
  forall r, In r (remoteCores l) \/ In r (remoteCores l') ->
            internal.handle r <> None /\ level r = New_level conf.
Proof.
  intros l l'. unfold l, l'.
  destruct (remoteCores_at_most_one conf handle_ fss) as [Hn Hp].
  split; [exact Hn | split; [exact Hp |]].
  rewrite !remoteCores_derive_map.
  intros r Hin.
  {
    assert (Hsrc : exists r0,
               r = fold_left With fss r0 /\
               (In r0 (remoteCores (fst (New (Some conf) handle_))) \/
                In r0 (remoteCores (fst (New_part004 (Some conf) handle_))))).
    { destruct Hin as [Hin | Hin]; apply in_map_iff in Hin;
        destruct Hin as (r0 & <- & Hr0); eauto. }
    destruct Hsrc as (r0 & -> & Hr0).
    destruct (fold_With_handle fss r0) as [-> ->].
    exact (New_remoteCores_shape conf handle_ r0 Hr0). }
Qed.

(** X11: one emit call is at most one call of a delivery callback, whatever
    the configuration, the constructor, the severity and the fields, also
    through derived entry points: the remote sink is never invoked
    twice. *)
Theorem emit_calls_at_most_once (conf : Conf) (handle_ : option Handle)
  (fss : list (list Field)) (lvl : zapcore.Level) (msg : string)
  (now : Time) (site : EntryCaller) (fs : list Field) :
  (length (List.filter is_Call
     (events (Logger_Log (derive (fst (New (Some conf) handle_)) fss)
                lvl msg now site fs))) <= 1)%nat /\
  (length (List.filter is_Call
     (events (Logger_Log (derive (fst (New_part004 (Some conf) handle_)) fss)
                lvl msg now site fs))) <= 1)%nat.
Proof.
  assert (Hgen : forall l,
             (length (remoteCores l) <= 1)%nat ->
             (length (List.filter is_Call
                (events (Logger_Log l lvl msg now site fs))) <= 1)%nat).
  { intros [| cores ac] Hlen; [simpl; lia |].
    rewrite Log_calls.
    destruct (remoteCores (New_ cores ac)) as [| r [| r' rest]];
      simpl in *; [lia | | lia].
    rewrite app_nil_r. destruct (Enabled r lvl); [| simpl; lia].
    apply Write_calls_only. }
  destruct (remoteCores_at_most_one conf handle_ fss) as (Hn & Hp).
  split; apply Hgen; assumption.
Qed.

(** X12: a record below the level block of [New] leaves no event at all: no
    callback call and no console line, for either constructor and through
    every derived entry point. *)
Theorem below_level_is_silent (conf : Conf) (handle_ : option Handle)
  (fss : list (list Field)) (lvl : zapcore.Level) (msg : string)
  (now : Time) (site : EntryCaller) (fs : list Field) :
  lvl < New_level conf ->
  Logger_Log (derive (fst (New (Some conf) handle_)) fss)
    lvl msg now site fs = (tt, []) /\
  Logger_Log (derive (fst (New_part004 (Some conf) handle_)) fss)
    lvl msg now site fs = (tt, []).
Proof.
  intros Hlt.
  destruct (logger_facts.New_coreLevels conf handle_) as [Hn Hp].
  split; apply below_all_gates; rewrite coreLevels_derive;
    eapply Forall_impl; try eassumption; simpl; intros lv <-; exact Hlt.
Qed.

End WithExternals.

Import reference fixtures.

Lemma below_level_is_silent_witness :
  DebugLevel < New_level remote_only /\
  Logger_Log (derive (fst (New (Some remote_only) (Some 7%nat)))
                [[zap_String "service" "x"]])
    DebugLevel "noise" 0 here [] = (tt, []).
Proof.
  split; [reflexivity |].
  apply (below_level_is_silent remote_only (Some 7%nat)
           [[zap_String "service" "x"]] DebugLevel "noise" 0 here []).
  reflexivity.
Defined.

Lemma New_part004_against_New_witness :
  fst (New_part004 (Some (set_handle remote_only (Some 3%nat))) (Some 7%nat))
  = fst (New (Some (set_handle remote_only (Some 3%nat))) (Some 7%nat)) /\
  remoteCores (fst (New_part004 (Some remote_only) (Some 7%nat))) = [] /\
  remoteCores (fst (New (Some remote_only) (Some 7%nat))) <> [].
Proof.
  split.
  - apply (New_part004_against_New (set_handle remote_only (Some 3%nat))
             (Some 7%nat)).
    right. left. split; discriminate.
  - apply (New_part004_against_New remote_only (Some 7%nat));
      [reflexivity |]. left. split; [reflexivity | discriminate].
Defined.

End logger_more.

(** ** More on slices: what [Write] scans, what the relay queues *)

Module slices_more.
Import zapcore slices.

Section Append.
Variable slack : nat -> nat -> nat.

(** X13: [Write] gathers the fields it scans without writing to any array that
    existed before: the standing fields of the core and the slice of the
    caller read as before, and so does every other slice; what it scans is
    the standing fields followed by the call-site fields. *)
Theorem allFields_leaves_store (σ σ' : gmap loc (list Field))
  (c : remoteCore) (fs s : slice) :
  backed σ (fields c) -> backed σ fs ->
  write_slices.allFields slack σ c fs = (σ', s) ->
  cells σ' s = cells σ (fields c) ++ cells σ fs /\
  cells σ' s = internal.allFields (contents σ c) (cells σ fs) /\
  (forall a, a ∈ dom σ -> σ' !! a = σ !! a) /\
  (forall t, backed σ t -> cells σ' t = cells σ t).
Proof.
  intros Hc Hfs Hall.
  assert (Hgoal : cells σ' s = cells σ (fields c) ++ cells σ fs /\
                  (forall a, a ∈ dom σ -> σ' !! a = σ !! a)).
  { unfold write_slices.allFields in Hall.
    pose proof (slices_facts.cells_length _ _ Hc) as Hlen.
    destruct (Nat.eqb_spec (len (fields c)) 0) as [Hz | Hnz]; simpl in Hall.
    - injection Hall as <- <-. split; [| auto].
      rewrite Hz in Hlen. apply nil_length_inv in Hlen. now rewrite Hlen.
    - destruct (append slack σ nil_slice (cells σ (fields c)))
        as [σ1 s1] eqn:E1.
      destruct (slices_facts.append_spec slack _ _ _ _ _
                  (slices_facts.backed_nil σ) E1)
        as (Hcells1 & Hb1 & Hframe1 & Hown1 & Hmono1).
      destruct (slices_facts.append_spec slack _ _ _ _ _ Hb1 Hall)
        as (Hcells2 & Hb2 & Hframe2 & Hown2 & Hmono2).
      assert (Hold1 : forall a, a ∈ dom σ -> σ1 !! a = σ !! a).
      { intros a Ha. apply Hframe1; [exact Ha | discriminate]. }
      assert (Hs1 : forall a, a ∈ dom σ -> array s1 <> Some a).
      { intros a Ha Heq. destruct Hown1 as [Hnil | (a1 & Ha1 & Hfresh)].
        - rewrite Heq in Hnil. discriminate.
        - rewrite Heq in Ha1. injection Ha1 as ->. contradiction. }
      assert (Hfs1 : cells σ1 fs = cells σ fs).
      { apply slices_facts.cells_frame. intros a Ha. apply Hold1.
        eapply slices_facts.backed_dom; eauto. }
      split.
      + rewrite Hcells2, Hcells1, Hfs1. reflexivity.
      + intros a Ha. rewrite Hframe2; auto. }
  destruct Hgoal as [Hcells Hframe].
  split; [exact Hcells |].
  split; [rewrite Hcells, remote_facts.allFields_app; reflexivity |].
  split; [exact Hframe |].
  intros t Ht. apply slices_facts.cells_frame. intros a Ha.
  apply Hframe. eapply slices_facts.backed_dom; eauto.
Qed.

End Append.

Import fixtures.

Lemma allFields_leaves_store_witness :
  let r := write_slices.allFields double store0 core0 arg1 in
  cells (fst r) (snd r) = [svc; one] /\
  cells (fst r) (fields core0) = [svc] /\
  cells (fst r) arg1 = [one].
Proof.
  intros r.
  destruct slices_facts.store0_backed as (Hc & H1 & _).
  pose proof (allFields_leaves_store double store0 (fst r) core0 arg1 (snd r)
                Hc H1 (surjective_pairing r)) as (Hs & _ & _ & Hkeep).
  split; [exact Hs |].
  split; [exact (Hkeep _ Hc) | exact (Hkeep _ H1)].
Defined.

End slices_more.

Module byte_slices_facts.
Import byte_slices.

Section Append.
Variable slack : nat -> nat -> nat.

(** X14: what [Write] sends is a copy of its own: it reads as the payload
    read when [Write] was called, no array that existed then is written
    to, and whatever the caller writes into those arrays afterwards, the
    queued payload still reads the same. *)
Theorem Write_copy_is_private (σ σ' : gmap loc bytes) (p s : slice) :
  backed σ p ->
  Write_copy slack σ p = (σ', s) ->
  cells σ' s = cells σ p /\
  (forall a, a ∈ dom σ -> σ' !! a = σ !! a) /\
  (forall σ'', (forall a, a ∉ dom σ -> σ'' !! a = σ' !! a) ->
               cells σ'' s = cells σ p).
Proof.
  intros Hp Hcopy. unfold Write_copy, append in Hcopy. simpl in Hcopy.
  destruct (Nat.leb_spec (length (cells σ p)) 0) as [Hz | Hpos].
  - injection Hcopy as <- <-.
    assert (Hnil : cells σ p = []) by (apply nil_length_inv; lia).
    rewrite Hnil. repeat split; auto.
  - injection Hcopy as <- <-.
    pose proof (is_fresh (dom σ)) as Hfresh.
    set (a := fresh (dom σ)) in *.
    assert (Hread : forall τ : gmap loc bytes,
               τ !! a = Some ([] ++ cells σ p ++
                              replicate (length (cells σ p)
                                         + slack 0%nat (length (cells σ p))
                                         - length (cells σ p)) Byte.x00) ->
               cells τ {| array := Some a; off := 0; len := length (cells σ p);
                          cap := length (cells σ p)
                                 + slack 0%nat (length (cells σ p)) |}
               = cells σ p).
    { intros τ Hτ. unfold cells at 1. simpl. rewrite Hτ. simpl.
      rewrite drop_0. apply take_app_length. }
    split; [apply Hread, lookup_insert_eq |].
    split.
    + intros a' Ha'. apply lookup_insert_ne. intros ->. contradiction.
    + intros σ'' Hsame. apply Hread.
      etransitivity; [exact (Hsame a Hfresh) | apply lookup_insert_eq].
Qed.

End Append.

Lemma Write_copy_is_private_witness :
  let σ : gmap loc bytes := {[ 0%nat := [Byte.x61; Byte.x62; Byte.x63] ]} in
  let p := {| array := Some 0%nat; off := 0; len := 2; cap := 3 |} in
  let r := Write_copy (fun _ n => n) σ p in
  cells (<[0%nat := [Byte.x7a; Byte.x7a; Byte.x7a]]> (fst r)) (snd r)
  = [Byte.x61; Byte.x62].
Proof.
  intros σ p r.
  assert (Hp : backed σ p).
  { split; [simpl; lia |]. simpl. eexists. split; [reflexivity | simpl; lia]. }
  pose proof (Write_copy_is_private (fun _ n => n) σ (fst r) p (snd r) Hp
                (surjective_pairing r)) as (_ & _ & Hlater).
  apply Hlater. intros a Ha. apply lookup_insert_ne. intros <-.
  apply Ha. unfold σ. rewrite dom_singleton_L. set_solver.
Defined.

End byte_slices_facts.

(** ** More on the relay *)

Module relay_more.
Import relay schedules.

Lemma accepted_step (st : State) (a : Action) :
  accepted (step st a) = accepted st \/
  exists p, a = Produce p /\ accepted (step st a) = accepted st ++ [p].
Proof.
  destruct a as [p | i]; simpl.
  - unfold Write, try_send.
    destruct (find_parked (workers st)); simpl; [eauto |].
    destruct (length (queue st) <? size st)%nat; simpl; eauto.
  - left. unfold init_step.
    destruct (workers st !! i) as [[| | b | b] |]; simpl; auto.
    + destruct (queue st); reflexivity.
    + destruct (handle st); reflexivity.
    + destruct (handle st); reflexivity.
Qed.

Lemma accepted_run (acts : list Action) (st : State) :
  exists ext, accepted (run st acts) = accepted st ++ ext /\
              ext `sublist_of` produced acts.
Proof.
  revert st. induction acts as [| a acts IH]; intros st; simpl.
  - exists []. rewrite app_nil_r. split; [reflexivity | constructor].
  - destruct (IH (step st a)) as (ext & Hacc & Hsub).
    fold (run (step st a) acts). rewrite Hacc.
    destruct (accepted_step st a) as [-> | (p & -> & ->)].
    + exists ext. split; [reflexivity |].
      destruct a as [p | i]; simpl; [now apply sublist_cons | exact Hsub].
    + exists (p :: ext). rewrite <- app_assoc. split; [reflexivity |].
      simpl. now apply sublist_skip.
Qed.

Lemma nil_handle_step (st : State) (a : Action) :
  handle st = None -> trace st = [] ->
  handle (step st a) = None /\ trace (step st a) = [].
Proof.
  intros Hh Ht. destruct a as [p | i]; simpl.
  - unfold Write, try_send.
    destruct (find_parked (workers st)); simpl; [auto |].
    destruct (length (queue st) <? size st)%nat; simpl; auto.
  - unfold init_step.
    destruct (workers st !! i) as [[| | b | b] |]; simpl; auto.
    + destruct (queue st); simpl; auto.
    + rewrite Hh. simpl. auto.
    + rewrite Hh. simpl. auto.
Qed.

Lemma nil_handle_run (acts : list Action) (st : State) :
  handle st = None -> trace st = [] ->
  trace (run st acts) = [] /\ handle (run st acts) = None.
Proof.
  revert st. induction acts as [| a acts IH]; intros st Hh Ht; simpl;
    [auto |].
  destruct (nil_handle_step st a Hh Ht) as [Hh' Ht']. now apply IH.
Qed.

Lemma NewAsyncLogger_nil (n : Z) (st0 : State) :
  NewAsyncLogger n None = Some st0 -> handle st0 = None /\ trace st0 = [].
Proof.
  unfold NewAsyncLogger. destruct (n <? 0); [discriminate |].
  intros [= <-]. auto.
Qed.

(** X15: a relay built without a callback never calls anything: whatever is
    written and however the goroutine is scheduled, the payloads it takes
    from the queue are discarded. *)
Theorem nil_handle_never_calls (n : Z) (st0 : State) (acts : list Action) :
  NewAsyncLogger n None = Some st0 ->
  trace (run st0 acts) = [] /\ handle (run st0 acts) = None.
Proof.
  intros Hnew. destruct (NewAsyncLogger_nil n st0 Hnew) as [Hh Ht].
  now apply nil_handle_run.
Qed.

(** X16: the queue never grows past the size given to [NewAsyncLogger],
    whatever is written and however slow the consumer is. *)
Theorem queue_stays_within_size (n : Z) (h : option Handle) (st0 : State)
  (acts : list Action) :
  NewAsyncLogger n h = Some st0 ->
  (length (queue (run st0 acts)) <= Z.to_nat n)%nat.
Proof.
  intros Hnew.
  pose proof (relay_facts.shape_run st0 acts
                (relay_facts.NewAsyncLogger_shape n h st0 Hnew))
    as (w & _ & _ & Hlen).
  rewrite relay_facts.size_run in Hlen.
  destruct (relay_facts.NewAsyncLogger_size n h st0 Hnew) as [_ Hsz].
  lia.
Qed.

(** X17: nothing is delivered that was not written: the payloads the callback
    is called with are, in order, among the payloads passed to [Write],
    each at most as often as it was written; so are the accepted ones,
    and neither outnumbers the writes. *)
Theorem calls_come_from_writes (n : Z) (h : option Handle) (st0 : State)
  (acts : list Action) :
  NewAsyncLogger n h = Some st0 ->
  let st := run st0 acts in
  accepted st `sublist_of` produced acts /\
  calls (trace st) `sublist_of` produced acts /\
  (length (calls (trace st)) <= length (accepted st) <= length (produced acts))%nat.
Proof.
  intros Hnew st.
  assert (Hacc : accepted st `sublist_of` produced acts).
  { destruct (accepted_run acts st0) as (ext & Hacc & Hsub).
    unfold st. rewrite Hacc.
    unfold NewAsyncLogger in Hnew. destruct (n <? 0); [discriminate |].
    injection Hnew as <-. simpl. exact Hsub. }
  assert (Hcalls : calls (trace st) `sublist_of` accepted st).
  { destruct h as [h |].
    - pose proof (relay_facts.delivery_run h st0 acts
                    (relay_facts.NewAsyncLogger_shape _ _ _ Hnew)
                    (relay_facts.NewAsyncLogger_delivery _ _ _ Hnew))
        as (_ & w & done & _ & Htr & Ha).
      fold st in Htr, Ha. rewrite Htr, Ha, relay_facts.calls_completed.
      apply sublist_app; [reflexivity |].
      destruct w; simpl; try apply sublist_nil_l.
      apply sublist_skip, sublist_nil_l.
    - destruct (NewAsyncLogger_nil n st0 Hnew) as [Hh0 Ht0].
      destruct (nil_handle_run acts st0 Hh0 Ht0) as [Ht _].
      fold st in Ht. rewrite Ht. apply sublist_nil_l. }
  split; [exact Hacc |].
  split; [etransitivity; eassumption |].
  split; apply sublist_length; assumption.
Qed.

(** X18: with a callback, the payloads accepted and not yet handed to it
    are never more than the size of the queue and the one the consumer
    holds: a callback that is slow, or never returns, holds back at most
    [size + 1] payloads. *)
Theorem backlog_is_bounded (n : Z) (h : Handle) (st0 : State)
  (acts : list Action) :
  NewAsyncLogger n (Some h) = Some st0 ->
  let st := run st0 acts in
  (length (accepted st) <= length (calls (trace st)) + Z.to_nat n + 1)%nat.
Proof.
  intros Hnew st.
  pose proof (relay_facts.shape_run st0 acts
                (relay_facts.NewAsyncLogger_shape _ _ _ Hnew))
    as (w0 & Hw0 & _ & Hlen).
  pose proof (relay_facts.delivery_run h st0 acts
                (relay_facts.NewAsyncLogger_shape _ _ _ Hnew)
                (relay_facts.NewAsyncLogger_delivery _ _ _ Hnew))
    as (_ & w & done & Hw & Htr & Ha).
  rewrite relay_facts.size_run in Hlen.
  fold st in Hlen, Htr, Ha.
  destruct (relay_facts.NewAsyncLogger_size _ _ _ Hnew) as [_ Hsz].
  rewrite Htr, Ha, relay_facts.calls_completed, !length_app.
  destruct w; simpl; lia.
Qed.

Import fixtures.

Lemma backlog_is_bounded_witness :
  NewAsyncLogger 2 (Some 7%nat) = Some relay0 /\
  (length (accepted (run relay0 schedule))
   <= length (calls (trace (run relay0 schedule))) + Z.to_nat 2 + 1)%nat.
Proof.
  split; [reflexivity |].
  apply (backlog_is_bounded 2 7%nat relay0 schedule eq_refl).
Defined.

Lemma queue_stays_within_size_witness :
  NewAsyncLogger 2 (Some 7%nat) = Some relay0 /\
  (length (queue (run relay0 schedule)) <= Z.to_nat 2)%nat.
Proof.
  split; [reflexivity |].
  apply (queue_stays_within_size 2 (Some 7%nat) relay0 schedule eq_refl).
Defined.

Lemma calls_come_from_writes_witness :
  NewAsyncLogger 2 (Some 7%nat) = Some relay0 /\
  calls (trace (run relay0 schedule)) `sublist_of` [p1; p2; p3; p4].
Proof.
  split; [reflexivity |].
  apply (calls_come_from_writes 2 (Some 7%nat) relay0 schedule eq_refl).
Defined.

Lemma nil_handle_never_calls_witness :
  NewAsyncLogger 2 None
  = Some (mkState 2 None [] [AtRange] [] []) /\
  trace (run (mkState 2 None [] [AtRange] [] []) schedule) = [].
Proof.
  split; [reflexivity |].
  apply (nil_handle_never_calls 2 _ schedule eq_refl).
Defined.

End relay_more.

(** ** The first [New] against the later one *)

Module logger_v1_facts.
Import logger.

Section WithExternals.
Context `{Externals}.

(** X19: the first [New] of logger.go and the later one choose alike: run
    on the same configuration and callback, the first leaves the
    configuration object as the later leaves its configuration (and
    touches no other), both return the nop entry point for the same
    inputs, and the first installs a JSON core, on the configuration it
    was given, exactly when the later installs a remote core; as [New]
    returns, the configuration holds the callback the remote core holds.
    The JSON core writes through the configuration object: a line it
    writes is one call of the callback the configuration holds when the
    line is written, and no call when it holds none by then. *)
Theorem first_New_chooses_as_New (σ : logger_v1.ptr -> Conf)
  (p : logger_v1.ptr) (handle_ : option Handle) :
  let l1 := fst (logger_v1.New σ (Some p) handle_) in
  let σ1 := snd (logger_v1.New σ (Some p) handle_) in
  let l2 := fst (New (Some (σ p)) handle_) in
  Some (σ1 p) = snd (New (Some (σ p)) handle_) /\
  (forall q, q <> p -> σ1 q = σ q) /\
  (l1 = logger_v1.NewNop <-> l2 = zap.NewNop) /\
  map (fun k => handle (σ1 k)) (logger_v1.writers l1)
  = map internal.handle (zap.remoteCores l2) /\
  (forall k, In k (logger_v1.writers l1) -> k = p) /\
  (forall k σ' line,
      In k (logger_v1.writers l1) ->
      match handle (σ' p) with
      | Some h =>
          exists out,
            logger_v1.JsonCore_out σ' k line
            = ((Z.of_nat (length line), nil_error), [Call h out])
      | None =>
          logger_v1.JsonCore_out σ' k line
          = ((Z.of_nat (length line), nil_error), [])
      end).
Proof.
  intros l1 σ1 l2.
  assert (Hk : forall k, In k (logger_v1.writers l1) -> k = p).
  { intros k. unfold l1, logger_v1.New, logger_v1.store_set.
    destruct handle_ as [h |]; simpl; rewrite ?Nat.eqb_refl;
      destruct (σ p) as [co re lv ha]; simpl;
      destruct co, re, ha; simpl; intuition. }
  split; [| split; [| split; [| split; [| split]]]].
  - unfold σ1, logger_v1.New, logger_v1.store_set.
    destruct handle_ as [h |]; simpl; rewrite ?Nat.eqb_refl;
      destruct (σ p) as [co re lv ha]; destruct ha; reflexivity.
  - intros q Hq. unfold σ1, logger_v1.New, logger_v1.store_set.
    destruct handle_ as [h |]; simpl; [| reflexivity].
    destruct (Nat.eqb_spec q p); [contradiction | reflexivity].
  - unfold l1, l2, logger_v1.New, logger_v1.store_set.
    destruct handle_ as [h |]; simpl; rewrite ?Nat.eqb_refl;
      destruct (σ p) as [co re lv ha]; simpl;
      destruct co, re, ha; simpl;
      split; intros Heq; solve [reflexivity | discriminate].
  - unfold l1, σ1, l2, logger_v1.New, logger_v1.store_set.
    destruct handle_ as [h |]; simpl; rewrite ?Nat.eqb_refl;
      destruct (σ p) as [co re lv ha] eqn:Hp; simpl;
      destruct co, re, ha; simpl; rewrite ?Nat.eqb_refl, ?Hp;
      reflexivity.
  - exact Hk.
  - intros k σ' line Hin. rewrite (Hk k Hin).
    unfold logger_v1.JsonCore_out, Conf_Write.
    destruct (handle (σ' p)) as [h |]; [| reflexivity].
    destruct (json_Unmarshal_zapLog line); [| eauto].
    destruct (json_Marshal _); eauto.
Qed.

End WithExternals.

Import reference fixtures.

(** The JSON core follows the configuration: after [New] with callback 7,
    a line goes to 7; once [WithHandle] has put 9 on the same
    configuration, the next line goes to 9. *)
Example JsonCore_follows_WithHandle :
  let σ : logger_v1.ptr -> Conf := fun _ => remote_only in
  let r := logger_v1.New σ (Some 0%nat) (Some 7%nat) in
  logger_v1.writers (fst r) = [0%nat] /\
  (exists out,
      events (logger_v1.JsonCore_out (snd r) 0%nat (list_byte_of_string "{}"))
      = [Call 7%nat out]) /\
  (exists out,
      events (logger_v1.JsonCore_out
                (logger_v1.WithHandle (snd r) 0%nat (Some 9%nat)) 0%nat
                (list_byte_of_string "{}"))
      = [Call 9%nat out]).
Proof. split; [reflexivity | split; eexists; reflexivity]. Qed.

End logger_v1_facts.

(** ** Encoding failure in the remote core *)

Module encoding_facts.
Import zapcore internal zap.

Section WithExternals.
Context `{Externals}.

(** C6: in the write path of the remote sink, a record whose envelope
    fails to encode is dropped: [Write] leaves no event and returns nil.
    Said from the other side, the callback is only ever called with bytes
    the encoder returned without an error for that record. No error comes
    back from [Write] in any case, and an emit call in which every remote
    sink fails to encode the record calls no callback. *)
Theorem encoding_failure_is_dropped :
  (forall c entry fs,
      json_Marshal (remoteLog_json (envelope c entry fs)) = None ->
      Write c entry fs = (nil_error, [])) /\
  (forall c entry fs e,
      In e (events (Write c entry fs)) ->
      exists h b,
        e = Call h b /\ internal.handle c = Some h /\
        json_Marshal (remoteLog_json (envelope c entry fs)) = Some b) /\
  (forall c entry fs, fst (Write c entry fs) = nil_error) /\
  (forall cores ac lvl msg now site fs,
      (forall r, In r (remoteCores (New_ cores ac)) ->
                 json_Marshal (remoteLog_json
                   (envelope r (logged_entry ac lvl msg now site) fs))
                 = None) ->
      List.filter is_Call
        (events (Logger_Log (New_ cores ac) lvl msg now site fs)) = []).
Proof.
  assert (Hdrop : forall c entry fs,
             json_Marshal (remoteLog_json (envelope c entry fs)) = None ->
             Write c entry fs = (nil_error, [])).
  { intros c entry fs Hfail. unfold Write. rewrite Hfail.
    destruct (internal.handle c); reflexivity. }
  split; [exact Hdrop |].
  split; [| split; [apply remote_facts.Write_nil |]].
  - intros c entry fs e Hin. rewrite remote_facts.Write_events in Hin.
    destruct (internal.handle c) as [h |]; [| destruct Hin].
    destruct (json_Marshal _) as [b |]; [| destruct Hin].
    destruct Hin as [<- | []]. eauto.
  - intros cores ac lvl msg now site fs Hfail.
    rewrite logger_more.Log_calls.
    induction (remoteCores (New_ cores ac)) as [| r rs IH];
      simpl; [reflexivity |].
    rewrite IH by (intros r' Hr'; apply Hfail; now right).
    rewrite app_nil_r. destruct (Enabled r lvl); [| reflexivity].
    rewrite (Hdrop r _ fs (Hfail r (or_introl eq_refl))). reflexivity.
Qed.

End WithExternals.

End encoding_facts.
